(** * add-to-steam.py: the shortcuts.vdf record codec, the store splice
      and the artwork cache, embedded in Rocq.

    Python values are modelled as follows.
    - [int] is [Z] (arbitrary precision).
    - [bytes] is [list byte].
    - [str] is a list of Unicode code points ([N]); [str.encode()] is the
      UTF-8 encoder, which raises [UnicodeEncodeError] on a surrogate.
    - exceptions are the [Raise] case of [result].
    - the file system is a finite map from paths to file contents. *)

From Stdlib Require Import ZArith NArith List Bool Lia.
From Stdlib Require Import Strings.Byte Strings.Ascii Strings.String.
From stdpp Require Import base option list gmap.

Local Open Scope Z_scope.

(** ** Bytes and text *)

Abbreviation byte := Byte.byte.
Abbreviation bytes := (list Byte.byte).

Definition codepoint := N.
Abbreviation str := (list N).

Definition byte_of_N (n : N) : byte :=
  match Byte.of_N (n mod 256)%N with
  | Some b => b
  | None => Byte.x00
  end.

Definition byte_val (b : byte) : Z := Z.of_N (Byte.to_N b).

(** A bytes literal [b'...'] and an ASCII str literal ['...']. *)
Definition blit (s : string) : bytes := list_byte_of_string s.
Definition slit (s : string) : str := List.map Byte.to_N (list_byte_of_string s).

(** ** Exceptions *)

Inductive exn : Type :=
  | UnicodeEncodeError
  | StructError.

Inductive result (A : Type) : Type :=
  | Ok (a : A)
  | Raise (e : exn).
Arguments Ok {A} a.
Arguments Raise {A} e.

#[global] Instance result_ret : MRet result := fun _ a => Ok a.
#[global] Instance result_bind : MBind result := fun _ _ f m =>
  match m with
  | Ok a => f a
  | Raise e => Raise e
  end.

(** ** [str.encode()]: UTF-8 *)

Definition is_surrogate (c : N) : bool :=
  ((0xD800 <=? c) && (c <=? 0xDFFF))%N.

Definition utf8_char (c : N) : result bytes :=
  if (c <? 0x80)%N then Ok [byte_of_N c]
  else if (c <? 0x800)%N then
    Ok [byte_of_N (0xC0 + c / 64); byte_of_N (0x80 + c mod 64)]
  else if (c <? 0x10000)%N then
    if is_surrogate c then Raise UnicodeEncodeError
    else Ok [byte_of_N (0xE0 + c / 4096);
             byte_of_N (0x80 + (c / 64) mod 64);
             byte_of_N (0x80 + c mod 64)]
  else if (c <? 0x110000)%N then
    Ok [byte_of_N (0xF0 + c / 262144);
        byte_of_N (0x80 + (c / 4096) mod 64);
        byte_of_N (0x80 + (c / 64) mod 64);
        byte_of_N (0x80 + c mod 64)]
  else Raise UnicodeEncodeError.

Fixpoint encode (s : str) : result bytes :=
  match s with
  | [] => Ok []
  | c :: s' =>
      bs ← utf8_char c;
      rest ← encode s';
      mret (bs ++ rest)
  end.

(** ** [str(int)]: the decimal numeral *)

(** Decimal digits of [n], most significant first.  The fuel bounds the
    number of digits; [decimal_digits] supplies the bit size, which is
    always enough ([digits_value]). *)
Fixpoint digits_of (fuel : nat) (n : N) : list N :=
  match fuel with
  | O => []
  | S f => if (n <? 10)%N then [n] else digits_of f (n / 10)%N ++ [(n mod 10)%N]
  end.

Definition decimal_digits (n : N) : list N :=
  digits_of (S (N.to_nat (N.size n))) n.

Definition digit_char (d : N) : N := (48 + d)%N.

Definition py_str (z : Z) : str :=
  if z <? 0 then 45%N :: List.map digit_char (decimal_digits (Z.to_N (- z)))
  else List.map digit_char (decimal_digits (Z.to_N z)).

(** ** [struct.pack('<I', v)] *)

Fixpoint le_bytes (n : nat) (v : Z) : bytes :=
  match n with
  | O => []
  | S n' => byte_of_N (Z.to_N (v mod 256)) :: le_bytes n' (v / 256)
  end.

Definition struct_pack_I (v : Z) : result bytes :=
  if (0 <=? v) && (v <=? 0xFFFFFFFF) then Ok (le_bytes 4 v)
  else Raise StructError.

(** ** [make_entry] (lines 86-107)

    [config_dir] is the module-level global the function reads. *)

Definition x00 : bytes := [Byte.x00].
Definition x01 : bytes := [Byte.x01].
Definition x02 : bytes := [Byte.x02].
Definition x08 : bytes := [Byte.x08].

Definition make_entry (config_dir : str) (index appid : Z)
    (appname exe startdir : str) : result bytes :=
  let b := [] in
  idx ← encode (py_str index);
  let b := b ++ x00 ++ idx ++ x00 in
  packed ← struct_pack_I appid;
  let b := b ++ x02 ++ blit "appid" ++ x00 ++ packed in
  name_b ← encode appname;
  let b := b ++ x01 ++ blit "appname" ++ x00 ++ name_b ++ x00 in
  exe_b ← encode exe;
  let b := b ++ x01 ++ blit "exe" ++ x00 ++ exe_b ++ x00 in
  dir_b ← encode startdir;
  let b := b ++ x01 ++ blit "StartDir" ++ x00 ++ dir_b ++ x00 in
  cfg_b ← encode config_dir;
  id_b ← encode (py_str appid);
  let b := b ++ x01 ++ blit "icon" ++ x00 ++ cfg_b ++ blit "/grid/" ++ id_b
             ++ blit "_icon.ico" ++ x00 in
  let b := b ++ x08 in
  mret b.


(** ** [zlib.crc32] *)

(** Modelled from the spec: [zlib.crc32] is a library function outside the
    repository; the spec names it as the CRC-32 checksum with the standard
    polynomial of the zlib/IEEE algorithm (reflected polynomial
    0xEDB88320, initial value and final xor 0xFFFFFFFF). *)
Fixpoint crc_shift (k : nat) (c : Z) : Z :=
  match k with
  | O => c
  | S k' =>
      crc_shift k' (if Z.testbit c 0
                    then Z.lxor (Z.shiftr c 1) 0xEDB88320
                    else Z.shiftr c 1)
  end.

Definition crc_step (c : Z) (b : byte) : Z :=
  crc_shift 8 (Z.lxor c (byte_val b)).

Definition crc32 (data : bytes) : Z :=
  Z.lxor (fold_left crc_step data 0xFFFFFFFF) 0xFFFFFFFF.


(** ** The identifier (line 110)

    [0x80000000 | zlib.crc32((APPNAME + EXE).encode("utf-8")) & 0xFFFFFFFF];
    Python's [&] binds tighter than [|]. *)
Definition compute_appid (appname exe : str) : result Z :=
  enc ← encode (appname ++ exe);
  mret (Z.lor 0x80000000 (Z.land (crc32 enc) 0xFFFFFFFF)).

(** ** [re.findall] on the pattern of [get_latest_index] *)

(** The fragment of regular expressions the pattern uses: a literal byte,
    the class [\d] (ASCII digits, as the pattern is a bytes pattern), a
    single atom, and a capturing group around a greedy [+]. *)
Inductive atom : Type :=
  | Lit (b : byte)
  | Digit.

Inductive piece : Type :=
  | Once (a : atom)
  | GroupPlus (a : atom).

Definition is_digit (x : byte) : bool :=
  (48 <=? byte_val x) && (byte_val x <=? 57).

Definition atom_match (a : atom) (x : byte) : bool :=
  match a with
  | Lit b => Byte.eqb b x
  | Digit => is_digit x
  end.

(** A greedy [a+] followed by the rest [k] of the pattern: it first tries
    to take one more byte and stops at the current one only when taking
    more fails (backtracking).  The bytes taken are the captured group. *)
Fixpoint match_plus (a : atom) (k : bytes → option (bytes * bytes)) (s : bytes)
    : option (bytes * bytes) :=
  match s with
  | [] => None
  | x :: s' =>
      if atom_match a x then
        match match_plus a k s' with
        | Some (g, r) => Some (x :: g, r)
        | None =>
            match k s' with
            | Some (g, r) => Some (x :: g, r)
            | None => None
            end
        end
      else None
  end.

(** Match of a pattern at the head of [s]: the captured group and the
    unread rest. *)
Fixpoint match_here (p : list piece) (s : bytes) {struct p} : option (bytes * bytes) :=
  match p with
  | [] => Some ([], s)
  | Once a :: p' =>
      match s with
      | x :: s' => if atom_match a x then match_here p' s' else None
      | [] => None
      end
  | GroupPlus a :: p' => match_plus a (match_here p') s
  end.

(** [findall]: leftmost matches, each search resuming where the previous
    match ended; a position with no match is skipped by one byte. *)
Fixpoint findall_from (fuel : nat) (p : list piece) (s : bytes) : list bytes :=
  match fuel with
  | O => []
  | S f =>
      match match_here p s with
      | Some (g, r) => g :: findall_from f p r
      | None =>
          match s with
          | [] => []
          | _ :: s' => findall_from f p s'
          end
      end
  end.

Definition findall (p : list piece) (s : bytes) : list bytes :=
  findall_from (S (length s)) p s.

(** [rb'\x00(\d+)\x00'] *)
Definition index_pattern : list piece :=
  [Once (Lit Byte.x00); GroupPlus Digit; Once (Lit Byte.x00)].

(** [int(b)] for [b] a run of ASCII digits, the only argument the group
    of [index_pattern] can produce. *)
Definition int_of_digits (b : bytes) : Z :=
  fold_left (fun acc x => 10 * acc + (byte_val x - 48)) b 0.

(** ** [get_latest_index] (lines 72-80) *)
Definition get_latest_index (data : bytes) : Z :=
  let matches := findall index_pattern data in
  match last matches with
  | Some m => int_of_digits m
  | None => -1
  end.

Definition empty_store : bytes := x00 ++ blit "shortcuts" ++ x00 ++ x08 ++ x08.

(** ** The splice (lines 114-115) *)

#[global] Instance byte_eq_dec : EqDecision byte := Byte.byte_eq_dec.

(** [s.endswith(suf)] for bytes and for str. *)
Definition endswith {A : Type} `{EqDecision A} (s suf : list A) : bool :=
  bool_decide (drop (length s - length suf) s = suf
               ∧ (length suf <= length s)%nat).

(** [data[:-2] + entry + b'\x08\x08'], guarded by [data.endswith]. *)
Definition splice (data entry : bytes) : option bytes :=
  if endswith data (x08 ++ x08)
  then Some (take (length data - 2) data ++ entry ++ x08 ++ x08)
  else None.

(** ** Paths: [os.path.join] (posixpath) *)

Definition sep : N := 47%N.

Definition starts_with_sep (s : str) : bool :=
  match s with
  | c :: _ => bool_decide (c = sep)
  | [] => false
  end.

Definition join2 (path b : str) : str :=
  if starts_with_sep b then b
  else if bool_decide (path = []) || endswith path [sep] then path ++ b
  else path ++ [sep] ++ b.

Definition join (a : str) (p : list str) : str := fold_left join2 p a.

(** ** Configuration (lines 17-61)

    Launcher detection and the choice of the Steam user are outside the
    codec; their results are the inputs of the rest of the script. *)
Record env : Type := {
  userdata : str;
  user_id : str;
  EXE : str;
  STARTDIR : str
}.

Definition APPNAME : str := slit "Minecraft Splitscreen".

Definition config_dir (e : env) : str :=
  join (userdata e) [user_id e; slit "config"].
Definition shortcuts_file (e : env) : str :=
  join (config_dir e) [slit "shortcuts.vdf"].
Definition grid_dir (e : env) : str :=
  join (userdata e) [user_id e; slit "config"; slit "grid"].

(** [STEAMGRIDDB_IMAGES]: a dict literal, iterated in insertion order. *)
Definition STEAMGRIDDB_IMAGES : list (str * str) :=
  [ (slit "p", slit "https://cdn2.steamgriddb.com/grid/a73027901f88055aaa0fd1a9e25d36c7.png");
    (slit "", slit "https://cdn2.steamgriddb.com/grid/e353b610e9ce20f963b4cca5da565605.jpg");
    (slit "_hero", slit "https://cdn2.steamgriddb.com/hero/ecd812da02543c0269cfc2c56ab3c3c0.png");
    (slit "_logo", slit "https://cdn2.steamgriddb.com/logo/90915208c601cc8c86ad01250ee90c12.png");
    (slit "_icon", slit "https://cdn2.steamgriddb.com/icon/add7a048049671970976f3e18f21ade3.ico") ].

(** ** The world: files and what the script reports *)

Inductive event : Type :=
  | ShortcutAdded (index appid : Z)
  | NotRecognized
  | Skipping (suffix : str)
  | Downloading (url : str)
  | Saved (suffix : str)
  | FailedDownload (suffix : str)
  | AllDone.

Record world : Type := {
  fs : gmap str bytes;
  out : list event
}.

Definition write_file (path : str) (content : bytes) (w : world) : world :=
  {| fs := <[path := content]> (fs w); out := out w |}.

Definition emit (ev : event) (w : world) : world :=
  {| fs := fs w; out := out w ++ [ev] |}.

Definition exists_file (path : str) (w : world) : bool :=
  bool_decide (is_Some (fs w !! path)).

(** What [urlopen(req)] followed by [resp.read()] does for a URL:
    [urlopen] raises; or it answers and the read raises, by which time
    [open(path, "wb")] has created the file; or the body arrives. *)
Inductive response : Type :=
  | UrlError
  | ReadError
  | Body (b : bytes).

(** ** The artwork loop (lines 127-140) *)

Definition asset_path (grid appid_s suffix url : str) : str :=
  join grid [if negb (endswith url (slit ".ico"))
             then appid_s ++ suffix ++ slit ".png"
             else appid_s ++ suffix ++ slit ".ico"].

Definition sync_one (net : str → response) (grid : str) (appid : Z)
    (w : world) (v : str * str) : world :=
  let '(suffix, url) := v in
  let path := asset_path grid (py_str appid) suffix url in
  if exists_file path w then emit (Skipping suffix) w
  else
    let w := emit (Downloading url) w in
    match net url with
    | UrlError => emit (FailedDownload suffix) w
    | ReadError => emit (FailedDownload suffix) (write_file path [] w)
    | Body b => emit (Saved suffix) (write_file path b w)
    end.

Definition sync_variants (net : str → response) (grid : str) (appid : Z)
    (vs : list (str * str)) (w : world) : world :=
  fold_left (sync_one net grid appid) vs w.

Definition sync_assets (net : str → response) (grid : str) (appid : Z)
    (w : world) : world :=
  sync_variants net grid appid STEAMGRIDDB_IMAGES w.

(** ** The script from line 63 on *)

Inductive outcome : Type :=
  | Exit (code : Z)
  | Uncaught (e : exn).

Definition read_file (path : str) (w : world) : bytes :=
  default [] (fs w !! path).

Definition main (e : env) (net : str → response) (w : world) : outcome * world :=
  let w := if exists_file (shortcuts_file e) w then w
           else write_file (shortcuts_file e) empty_store w in
  let data := read_file (shortcuts_file e) w in
  let index := get_latest_index data + 1 in
  match compute_appid APPNAME (EXE e) with
  | Raise x => (Uncaught x, w)
  | Ok appid =>
      match make_entry (config_dir e) index appid APPNAME (EXE e) (STARTDIR e) with
      | Raise x => (Uncaught x, w)
      | Ok entry =>
          match splice data entry with
          | Some new_data =>
              let w := write_file (shortcuts_file e) new_data w in
              let w := emit (ShortcutAdded index appid) w in
              let w := sync_assets net (grid_dir e) appid w in
              (Exit 0, emit AllDone w)
          | None => (Exit 1, emit NotRecognized w)
          end
      end
  end.

(** ** The layout and the properties, in the words of the specification *)

(** An occurrence in [data]: a null byte, one or more ASCII digits, a null
    byte, with [pre] before it and [post] after it. *)
Definition digit_run (g : bytes) : Prop :=
  g ≠ [] ∧ Forall (fun x => is_digit x = true) g.

Definition occurrence (data pre digs post : bytes) : Prop :=
  data = pre ++ x00 ++ digs ++ x00 ++ post ∧ digit_run digs.

(** The occurrence that starts last in byte order. *)
Definition last_occurrence (data pre digs post : bytes) : Prop :=
  occurrence data pre digs post
  ∧ ∀ pre' digs' post',
      occurrence data pre' digs' post' → (length pre' <= length pre)%nat.

(** [pre] ends with a null byte and a run of digits: an occurrence that
    starts right after [pre] would share its opening null byte with the
    run before it when that run began at a null. *)
Definition open_run (pre : bytes) : Prop :=
  ∃ p g, pre = p ++ x00 ++ g ∧ digit_run g.

(** The index as decimal ASCII. *)
Definition ascii_digit (d : N) : byte := byte_of_N (48 + d).

Definition decimal_ascii (z : Z) : bytes :=
  if z <? 0 then Byte.x2d :: List.map ascii_digit (decimal_digits (Z.to_N (- z)))
  else List.map ascii_digit (decimal_digits (Z.to_N z)).

(** A 4-byte little-endian unsigned integer. *)
Definition uint32_le (v : Z) : bytes :=
  [ byte_of_N (Z.to_N (v mod 256));
    byte_of_N (Z.to_N ((v / 256) mod 256));
    byte_of_N (Z.to_N ((v / 65536) mod 256));
    byte_of_N (Z.to_N ((v / 16777216) mod 256)) ].

Definition int_field (name : string) (v : Z) : bytes :=
  x02 ++ blit name ++ x00 ++ uint32_le v.

Definition string_field (name : string) (value : bytes) : bytes :=
  x01 ++ blit name ++ x00 ++ value ++ x00.

Definition record_layout (icon_dir : bytes) (index appid : Z)
    (name exe dir : bytes) : bytes :=
  x00 ++ decimal_ascii index ++ x00
  ++ int_field "appid" appid
  ++ string_field "appname" name
  ++ string_field "exe" exe
  ++ string_field "StartDir" dir
  ++ string_field "icon"
       (icon_dir ++ blit "/grid/" ++ decimal_ascii appid ++ blit "_icon.ico")
  ++ x08.

(** A store that holds the given records and nothing else. *)
Definition store_of (records : list bytes) : bytes :=
  x00 ++ blit "shortcuts" ++ x00 ++ concat records ++ x08 ++ x08.

(** The indices a store holds, and the largest of them ([-1] when there
    is none). *)
Definition stored_indices (data : bytes) : list Z :=
  List.map int_of_digits (findall index_pattern data).

Definition max_index (data : bytes) : Z :=
  fold_right Z.max (-1) (stored_indices data).

(** Text free of U+0000, and text that is a non-empty run of ASCII digits. *)
Definition null_free (s : str) : Prop := 0%N ∉ s.

Definition digit_str (s : str) : Prop :=
  s ≠ [] ∧ Forall (fun c => (48 <= c <= 57)%N) s.

(** A record none of whose fields can be read as an index: the null byte
    that ends the name [appid] and the four identifier bytes hold no
    occurrence, the texts are free of U+0000, and the display name, the
    launch command and the working directory are not runs of digits. *)
Definition quiet_identifier (appid : Z) : Prop :=
  ∀ pre g post, ¬ occurrence (x00 ++ uint32_le appid) pre g post.

Definition plain_record (icon_dir : str) (appid : Z) (name exe dir : str) : Prop :=
  quiet_identifier appid
  ∧ null_free icon_dir ∧ null_free name ∧ null_free exe ∧ null_free dir
  ∧ ¬ digit_str name ∧ ¬ digit_str exe ∧ ¬ digit_str dir.

(** Text that [encode] accepts. *)
Definition valid_text (s : str) : Prop := ∃ b, encode s = Ok b.

(** The network requests among the events of a run, and the variants a
    run reports on (skipped, saved or failed). *)
Definition fetches (evs : list event) : list str :=
  omap (fun ev => match ev with Downloading u => Some u | _ => None end) evs.

Definition reported (evs : list event) : list str :=
  omap (fun ev => match ev with
                  | Skipping s | Saved s | FailedDownload s => Some s
                  | _ => None
                  end) evs.

(** The events a call adds to the report of the world it starts from. *)
Definition new_events (before after : world) : list event :=
  drop (length (out before)) (out after).

Definition variant_path (grid : str) (appid : Z) (v : str * str) : str :=
  asset_path grid (py_str appid) v.1 v.2.

(** ** A three-state reader that decides occurrences

    [Idle]: not inside a candidate; [AfterNull]: the previous byte was a
    null; [InDigits]: a null and then one or more digits were read. *)
Inductive scan_state : Type :=
  | Idle
  | AfterNull
  | InDigits.

Definition in_digits (st : scan_state) : bool :=
  match st with
  | InDigits => true
  | _ => false
  end.

Definition scan_next (st : scan_state) (x : byte) : scan_state :=
  if Byte.eqb x Byte.x00 then AfterNull
  else if is_digit x then
    match st with
    | Idle => Idle
    | _ => InDigits
    end
  else Idle.

Definition scan_after (st : scan_state) (s : bytes) : scan_state :=
  fold_left scan_next s st.

Fixpoint has_run (st : scan_state) (s : bytes) : bool :=
  match s with
  | [] => false
  | x :: s' => (Byte.eqb x Byte.x00 && in_digits st) || has_run (scan_next st x) s'
  end.

(** ** Sample inputs *)

Definition deck_env : env :=
  {| userdata := slit "/home/deck/.steam/steam/userdata";
     user_id := slit "1000";
     EXE := slit "/home/deck/.local/share/PollyMC/minecraftSplitscreen.sh";
     STARTDIR := slit "/home/deck/.local/share/PollyMC" |}.

(** A record with short fields, at a given index and display name. *)
Definition sample_record (index : Z) (name : string) : result bytes :=
  make_entry (slit "/c") index 0x80000001 (slit name) (slit "/x") (slit "/d").

Definition sample_bytes (index : Z) (name : string) : bytes :=
  record_layout (blit "/c") index 0x80000001 (blit name) (blit "/x") (blit "/d").

Definition empty_world : world := {| fs := ∅; out := [] |}.

Definition offline : str → response := fun _ => UrlError.
Definition online : str → response := fun _ => Body (blit "img").

#[global] Instance digit_str_dec (s : str) : Decision (digit_str s).
Proof. unfold digit_str. apply _. Defined.

#[global] Instance null_free_dec (s : str) : Decision (null_free s).
Proof. unfold null_free. apply _. Defined.

(** * Properties *)

(** ** Bytes *)

Lemma to_N_byte_of_N (n : N) : Byte.to_N (byte_of_N n) = (n mod 256)%N.
Proof.
  unfold byte_of_N.
  destruct (Byte.of_N (n mod 256)%N) as [b|] eqn:E.
  - by apply Byte.to_of_N.
  - apply Byte.of_N_None_iff in E.
    pose proof (N.mod_upper_bound n 256). lia.
Qed.

Lemma byte_val_of_N (n : N) : (n < 256)%N → byte_val (byte_of_N n) = Z.of_N n.
Proof.
  intros H. unfold byte_val. rewrite to_N_byte_of_N, N.mod_small; done.
Qed.

Lemma byte_val_range (x : byte) : 0 <= byte_val x <= 255.
Proof. unfold byte_val. pose proof (Byte.to_N_bounded x). lia. Qed.

Lemma byte_val_inj (x y : byte) : byte_val x = byte_val y → x = y.
Proof.
  unfold byte_val. intros H. apply N2Z.inj in H.
  pose proof (Byte.of_to_N x) as Hx. pose proof (Byte.of_to_N y) as Hy.
  congruence.
Qed.

Lemma eqb_x00_iff (x : byte) : Byte.eqb x Byte.x00 = true ↔ byte_val x = 0.
Proof.
  split.
  - intros H. apply Byte.byte_dec_bl in H. by subst.
  - intros H. apply Byte.byte_dec_lb, byte_val_inj. by rewrite H.
Qed.

Lemma is_digit_iff (x : byte) : is_digit x = true ↔ 48 <= byte_val x <= 57.
Proof. unfold is_digit. rewrite andb_true_iff, !Z.leb_le. done. Qed.

Lemma digit_not_null (x : byte) : is_digit x = true → Byte.eqb x Byte.x00 = false.
Proof.
  intros H. apply is_digit_iff in H.
  destruct (Byte.eqb x Byte.x00) eqn:E; [|done].
  apply eqb_x00_iff in E. lia.
Qed.

(** ** The result monad *)

Lemma bind_Ok {A B} (f : A → result B) (a : A) : (Ok a ≫= f) = f a.
Proof. reflexivity. Qed.

Lemma Ok_inj {A} (a b : A) : Ok a = Ok b → a = b.
Proof. by intros [= ->]. Qed.

Lemma bind_Ok_inv {A B} (f : A → result B) (m : result A) (b : B) :
  (m ≫= f) = Ok b → ∃ a, m = Ok a ∧ f a = Ok b.
Proof. destruct m as [a|e]; [eauto | discriminate]. Qed.

(** ** UTF-8 *)

Lemma encode_app (s t : str) :
  encode (s ++ t) = (bs ← encode s; bt ← encode t; mret (bs ++ bt)).
Proof.
  induction s as [|c s IH]; simpl.
  - destruct (encode t); reflexivity.
  - destruct (utf8_char c) as [bc|]; simpl; [|done].
    rewrite IH. destruct (encode s) as [bs|]; simpl; [|done].
    destruct (encode t) as [bt|]; simpl; [|done].
    unfold mret, result_ret. by rewrite app_assoc.
Qed.

Lemma encode_app_Ok (s t : str) (bs bt : bytes) :
  encode s = Ok bs → encode t = Ok bt → encode (s ++ t) = Ok (bs ++ bt).
Proof. intros Hs Ht. by rewrite encode_app, Hs, Ht. Qed.

Lemma encode_ascii (s : str) :
  Forall (fun c => (c < 128)%N) s → encode s = Ok (List.map byte_of_N s).
Proof.
  induction 1 as [|c s Hc _ IH]; simpl; [done|].
  unfold utf8_char. apply N.ltb_lt in Hc. rewrite Hc. simpl.
  by rewrite IH.
Qed.

(** ** Decimal numerals *)

Lemma digits_of_small (fuel : nat) (n : N) :
  Forall (fun d => (d < 10)%N) (digits_of fuel n).
Proof.
  revert n. induction fuel as [|f IH]; intros n; simpl; [constructor|].
  destruct (n <? 10)%N eqn:E.
  - apply N.ltb_lt in E. by repeat constructor.
  - apply Forall_app. split; [apply IH|].
    repeat constructor. apply N.mod_upper_bound. lia.
Qed.

Lemma encode_py_str (z : Z) : encode (py_str z) = Ok (decimal_ascii z).
Proof.
  assert (Hd : ∀ n, encode (List.map digit_char (decimal_digits n))
                    = Ok (List.map ascii_digit (decimal_digits n))).
  { intros n. rewrite encode_ascii.
    - by rewrite List.map_map.
    - apply Forall_map. eapply Forall_impl; [apply digits_of_small|].
      intros d Hlt. unfold digit_char. cbv beta in *. lia. }
  unfold py_str, decimal_ascii. destruct (z <? 0).
  - change (45%N :: ?l) with ([45%N] ++ l).
    by erewrite encode_app_Ok; [| reflexivity | apply Hd].
  - apply Hd.
Qed.

(** ** [struct.pack] *)

Lemma struct_pack_I_layout (v : Z) :
  0 <= v < 2 ^ 32 → struct_pack_I v = Ok (uint32_le v).
Proof.
  intros Hv. unfold struct_pack_I.
  replace ((0 <=? v) && (v <=? 0xFFFFFFFF)) with true
    by (symmetry; apply andb_true_iff; split; apply Z.leb_le; lia).
  unfold uint32_le, le_bytes.
  rewrite !Z.div_div by lia. reflexivity.
Qed.

Lemma struct_pack_I_range (v : Z) :
  ¬ (0 <= v < 2 ^ 32) → struct_pack_I v = Raise StructError.
Proof.
  intros Hv. unfold struct_pack_I.
  destruct ((0 <=? v) && (v <=? 0xFFFFFFFF)) eqn:E; [|done].
  apply andb_true_iff in E as [E1 E2]. apply Z.leb_le in E1, E2. lia.
Qed.

(** ** The record encoder *)

Lemma make_entry_layout (cfg : str) (index appid : Z) (appname exe startdir : str)
    (cfg_b name_b exe_b dir_b : bytes) :
  0 <= appid < 2 ^ 32 →
  encode cfg = Ok cfg_b →
  encode appname = Ok name_b →
  encode exe = Ok exe_b →
  encode startdir = Ok dir_b →
  make_entry cfg index appid appname exe startdir
  = Ok (record_layout cfg_b index appid name_b exe_b dir_b).
Proof.
  intros Hid Hc Hn He Hd. unfold make_entry.
  rewrite !encode_py_str, (struct_pack_I_layout _ Hid), Hc, Hn, He, Hd.
  cbn [mbind result_bind mret result_ret]. f_equal.
  unfold record_layout, int_field, string_field.
  rewrite app_nil_l, <- !app_assoc. reflexivity.
Qed.

(** ** Reading a decimal numeral back *)

Lemma int_of_digits_snoc (l : bytes) (x : byte) :
  int_of_digits (l ++ [x]) = 10 * int_of_digits l + (byte_val x - 48).
Proof. unfold int_of_digits. by rewrite fold_left_app. Qed.

Lemma byte_val_ascii_digit (d : N) :
  (d < 10)%N → byte_val (ascii_digit d) = 48 + Z.of_N d.
Proof.
  intros Hd. unfold ascii_digit. rewrite byte_val_of_N by lia. lia.
Qed.

Lemma is_digit_ascii_digit (d : N) : (d < 10)%N → is_digit (ascii_digit d) = true.
Proof.
  intros Hd. apply is_digit_iff. rewrite byte_val_ascii_digit by done. lia.
Qed.

Lemma digits_of_S (f : nat) (n : N) :
  digits_of (S f) n
  = if (n <? 10)%N then [n] else digits_of f (n / 10)%N ++ [(n mod 10)%N].
Proof. reflexivity. Qed.

Lemma digits_of_value (f : nat) (n : N) :
  (n < 2 ^ N.of_nat f)%N →
  int_of_digits (List.map ascii_digit (digits_of (S f) n)) = Z.of_N n.
Proof.
  revert n. induction f as [|f IH]; intros n Hn.
  - assert (n = 0%N) as -> by (simpl in Hn; lia). reflexivity.
  - rewrite digits_of_S. destruct (n <? 10)%N eqn:E.
    + apply N.ltb_lt in E. unfold int_of_digits. simpl.
      rewrite byte_val_ascii_digit by done. lia.
    + apply N.ltb_ge in E.
      rewrite List.map_app. cbn [List.map]. rewrite int_of_digits_snoc.
      rewrite Nat2N.inj_succ, N.pow_succ_r' in Hn.
      rewrite IH.
      * rewrite byte_val_ascii_digit by (apply N.mod_upper_bound; lia).
        rewrite N2Z.inj_div, N2Z.inj_mod. change (Z.of_N 10) with 10.
        pose proof (Z.div_mod (Z.of_N n) 10). lia.
      * pose proof (N.Div0.div_le_mono n (2 * 2 ^ N.of_nat f - 1) 10) as Hdiv.
        assert ((n / 10 <= n / 2)%N).
        { apply N.div_le_compat_l. lia. }
        assert ((n / 2 < 2 ^ N.of_nat f)%N).
        { apply N.Div0.div_lt_upper_bound. lia. }
        lia.
Qed.

Lemma digits_of_nonempty (f : nat) (n : N) : digits_of (S f) n ≠ [].
Proof.
  simpl. destruct (n <? 10)%N; [done|].
  intros H. by apply app_eq_nil in H as [_ H].
Qed.

Lemma decimal_value (n : N) :
  int_of_digits (List.map ascii_digit (decimal_digits n)) = Z.of_N n.
Proof.
  unfold decimal_digits. apply digits_of_value.
  rewrite N2Nat.id. apply N.size_gt.
Qed.

Lemma decimal_ascii_value (z : Z) :
  0 <= z → int_of_digits (decimal_ascii z) = z.
Proof.
  intros Hz. unfold decimal_ascii.
  replace (z <? 0) with false by (symmetry; apply Z.ltb_ge; lia).
  rewrite decimal_value. lia.
Qed.

Lemma decimal_ascii_digit_run (z : Z) : 0 <= z → digit_run (decimal_ascii z).
Proof.
  intros Hz. unfold decimal_ascii.
  replace (z <? 0) with false by (symmetry; apply Z.ltb_ge; lia).
  split.
  - intros H. apply map_eq_nil in H. by apply digits_of_nonempty in H.
  - apply Forall_map. eapply Forall_impl; [apply digits_of_small|].
    intros d Hd. by apply is_digit_ascii_digit.
Qed.

(** The four bytes of [uint32_le] carry [v], least significant byte first. *)
Lemma uint32_le_value (v : Z) :
  0 <= v < 2 ^ 32 →
  ∃ b0 b1 b2 b3,
    uint32_le v = [b0; b1; b2; b3]
    ∧ byte_val b0 + 256 * byte_val b1 + 65536 * byte_val b2
      + 16777216 * byte_val b3 = v.
Proof.
  intros Hv. unfold uint32_le. do 4 eexists. split; [reflexivity|].
  assert (Hb : ∀ k, 0 <= k → byte_val (byte_of_N (Z.to_N (k mod 256))) = k mod 256).
  { intros k Hk. pose proof (Z.mod_pos_bound k 256).
    rewrite byte_val_of_N by lia. lia. }
  rewrite !Hb by (try apply Z.div_pos; lia).
  pose proof (Z.div_mod v 256). pose proof (Z.div_mod (v / 256) 256).
  pose proof (Z.div_mod (v / 65536) 256).
  assert (v / 256 / 256 = v / 65536) by (by rewrite Z.div_div by lia).
  assert (v / 65536 / 256 = v / 16777216) by (by rewrite Z.div_div by lia).
  assert (v / 16777216 < 256) by (apply Z.div_lt_upper_bound; lia).
  assert (0 <= v / 16777216) by (apply Z.div_pos; lia).
  rewrite (Z.mod_small (v / 16777216)) by lia.
  lia.
Qed.

(** ** The pattern [\x00(\d+)\x00] *)

Lemma digit_run_cons (x : byte) (g : bytes) :
  is_digit x = true → Forall (fun y => is_digit y = true) g → digit_run (x :: g).
Proof. intros Hx Hg. split; [done | by constructor]. Qed.

Lemma match_plus_cons (a : atom) (k : bytes → option (bytes * bytes))
    (x : byte) (s : bytes) :
  match_plus a k (x :: s)
  = if atom_match a x then
      match match_plus a k s with
      | Some (g, r) => Some (x :: g, r)
      | None => match k s with
                | Some (g, r) => Some (x :: g, r)
                | None => None
                end
      end
    else None.
Proof. reflexivity. Qed.

Lemma match_digits_null_sound (s g r : bytes) :
  match_plus Digit (match_here [Once (Lit Byte.x00)]) s = Some (g, r) →
  s = g ++ x00 ++ r ∧ digit_run g.
Proof.
  revert g r. induction s as [|x s IH]; intros g r; simpl; [done|].
  destruct (is_digit x) eqn:Hx; [|done].
  destruct (match_plus Digit _ s) as [[g' r']|] eqn:Hm.
  - intros [= <- <-]. destruct (IH g' r' eq_refl) as [-> [_ Hg']].
    split; [done | by apply digit_run_cons].
  - destruct s as [|y s']; [done|]. simpl.
    destruct (Byte.eqb Byte.x00 y) eqn:Hy; [|done].
    apply Byte.byte_dec_bl in Hy as <-. intros [= <- <-].
    split; [done | by apply digit_run_cons].
Qed.

Lemma match_digits_null_complete (g r : bytes) :
  digit_run g →
  match_plus Digit (match_here [Once (Lit Byte.x00)]) (g ++ x00 ++ r) = Some (g, r).
Proof.
  intros [Hne Hg]. induction Hg as [|x g Hx Hg IH]; [done|].
  destruct g as [|y g].
  - simpl. by rewrite Hx.
  - change ((x :: y :: g) ++ x00 ++ r) with (x :: ((y :: g) ++ x00 ++ r)).
    rewrite match_plus_cons. cbn [atom_match]. by rewrite Hx, IH.
Qed.

Lemma match_digits_null (s g r : bytes) :
  match_plus Digit (match_here [Once (Lit Byte.x00)]) s = Some (g, r)
  ↔ s = g ++ x00 ++ r ∧ digit_run g.
Proof.
  split.
  - apply match_digits_null_sound.
  - intros [-> Hg]. by apply match_digits_null_complete.
Qed.

Lemma match_index_iff (s g r : bytes) :
  match_here index_pattern s = Some (g, r)
  ↔ s = x00 ++ g ++ x00 ++ r ∧ digit_run g.
Proof.
  unfold index_pattern. cbn [match_here].
  destruct s as [|x s].
  - split; [done | by intros [? _]].
  - cbn [atom_match]. destruct (Byte.eqb Byte.x00 x) eqn:Hx.
    + apply Byte.byte_dec_bl in Hx as <-. rewrite match_digits_null.
      split; intros [H1 H2]; split; try done.
      * by rewrite H1.
      * by injection H1.
    + split; [done|]. intros [[= ->] _]. discriminate Hx.
Qed.

Lemma match_index_shorter (s g r : bytes) :
  match_here index_pattern s = Some (g, r) → (length r < length s)%nat.
Proof.
  intros H. apply match_index_iff in H as [-> _].
  rewrite !length_app. simpl. lia.
Qed.

(** ** [findall]: the fuel is always enough *)

Lemma findall_from_fuel (f1 f2 : nat) (s : bytes) :
  (length s < f1)%nat → (length s < f2)%nat →
  findall_from f1 index_pattern s = findall_from f2 index_pattern s.
Proof.
  revert f2 s. induction f1 as [|f1 IH]; intros f2 s H1 H2; [lia|].
  destruct f2 as [|f2]; [lia|]. cbn [findall_from].
  destruct (match_here index_pattern s) as [[g r]|] eqn:Hm.
  - apply match_index_shorter in Hm. f_equal. apply IH; lia.
  - destruct s as [|x s]; [done|]. simpl in H1, H2. apply IH; lia.
Qed.

Lemma findall_from_S (f : nat) (p : list piece) (s : bytes) :
  findall_from (S f) p s
  = match match_here p s with
    | Some (g, r) => g :: findall_from f p r
    | None => match s with
              | [] => []
              | _ :: s' => findall_from f p s'
              end
    end.
Proof. reflexivity. Qed.

Lemma findall_nil : findall index_pattern [] = [].
Proof. reflexivity. Qed.

Lemma findall_match (s g r : bytes) :
  match_here index_pattern s = Some (g, r) →
  findall index_pattern s = g :: findall index_pattern r.
Proof.
  intros Hm. unfold findall.
  rewrite (findall_from_S (length s) _ s), Hm. f_equal.
  apply match_index_shorter in Hm. apply findall_from_fuel; lia.
Qed.

Lemma findall_skip (x : byte) (s : bytes) :
  match_here index_pattern (x :: s) = None →
  findall index_pattern (x :: s) = findall index_pattern s.
Proof.
  intros Hm. unfold findall.
  rewrite (findall_from_S (length (x :: s)) _ (x :: s)), Hm.
  apply findall_from_fuel; simpl; lia.
Qed.

(** Induction along the scan. *)
Lemma findall_ind (P : bytes → list bytes → Prop) :
  P [] [] →
  (∀ s g r, match_here index_pattern s = Some (g, r) →
            P r (findall index_pattern r) → P s (g :: findall index_pattern r)) →
  (∀ x s, match_here index_pattern (x :: s) = None →
          P s (findall index_pattern s) → P (x :: s) (findall index_pattern s)) →
  ∀ s, P s (findall index_pattern s).
Proof.
  intros Hnil Hmatch Hskip s.
  remember (length s) as n eqn:Hn. revert s Hn.
  induction n as [n IH] using lt_wf_ind. intros s ->.
  destruct (match_here index_pattern s) as [[g r]|] eqn:Hm.
  - rewrite (findall_match _ _ _ Hm). apply Hmatch; [done|].
    apply (IH (length r)); [by eapply match_index_shorter | done].
  - destruct s as [|x s]; [apply Hnil|].
    rewrite (findall_skip _ _ Hm). apply Hskip; [done|].
    apply (IH (length s)); [simpl; lia | done].
Qed.

Lemma findall_digit_runs (s : bytes) : Forall digit_run (findall index_pattern s).
Proof.
  apply (findall_ind (fun _ ms => Forall digit_run ms)); [constructor | | done].
  intros s' g r Hm IH. constructor; [|done].
  by apply match_index_iff in Hm as [_ Hg].
Qed.

(** ** Occurrences and matches *)

Lemma occurrence_cons (x : byte) (s pre g post : bytes) :
  occurrence s pre g post → occurrence (x :: s) (x :: pre) g post.
Proof. intros [-> Hg]. by split. Qed.

Lemma occurrence_app (a s pre g post : bytes) :
  occurrence s pre g post → occurrence (a ++ s) (a ++ pre) g post.
Proof. intros [-> Hg]. split; [by rewrite <- app_assoc | done]. Qed.

Lemma occurrence_head (g post : bytes) :
  digit_run g → occurrence (x00 ++ g ++ x00 ++ post) [] g post.
Proof. by split. Qed.

Lemma findall_nil_iff (s : bytes) :
  findall index_pattern s = [] ↔ ∀ pre g post, ¬ occurrence s pre g post.
Proof.
  split.
  - intros Hf pre g post [-> Hg]. revert Hf.
    induction pre as [|x pre IH].
    + rewrite (findall_match _ g post); [done|]. by apply match_index_iff.
    + change ((x :: pre) ++ ?t) with (x :: (pre ++ t)).
      destruct (match_here index_pattern (x :: pre ++ x00 ++ g ++ x00 ++ post))
        as [[g' r']|] eqn:Hm.
      * by rewrite (findall_match _ _ _ Hm).
      * by rewrite (findall_skip _ _ Hm).
  - revert s.
    apply (findall_ind (fun s ms => (∀ pre g post, ¬ occurrence s pre g post) → ms = [])).
    + done.
    + intros s g r Hm _ Hno. exfalso. apply match_index_iff in Hm as [-> Hg].
      by apply (Hno [] g r), occurrence_head.
    + intros x s _ IH Hno. apply IH. intros pre g post Hocc.
      by apply (Hno (x :: pre) g post), occurrence_cons.
Qed.

Lemma digit_run_no_null (g a b : bytes) : digit_run g → g ≠ a ++ x00 ++ b.
Proof.
  intros [_ Hg] ->. apply Forall_app in Hg as [_ Hg].
  inversion Hg as [|? ? Hx _]. discriminate Hx.
Qed.

Lemma open_run_suffix (a pre : bytes) : open_run pre → open_run (a ++ pre).
Proof.
  intros (p & g & -> & Hg). exists (a ++ p), g. by rewrite <- app_assoc.
Qed.

(** A scan that starts before an occurrence reaches it, unless the
    occurrence's opening null byte closes a match that began earlier. *)
Lemma findall_reaches (pre digs post : bytes) :
  digit_run digs → ¬ open_run pre →
  ∃ ms, findall index_pattern (pre ++ x00 ++ digs ++ x00 ++ post)
        = ms ++ digs :: findall index_pattern post.
Proof.
  intros Hd. remember (length pre) as n eqn:Hn. revert pre Hn.
  induction n as [n IH] using lt_wf_ind. intros pre -> Hopen.
  destruct pre as [|x pre].
  { exists []. simpl. apply (findall_match _ digs post), match_index_iff. done. }
  change ((x :: pre) ++ ?t) with (x :: (pre ++ t)).
  destruct (match_here index_pattern (x :: pre ++ x00 ++ digs ++ x00 ++ post))
    as [[g r]|] eqn:Hm.
  - rewrite (findall_match _ _ _ Hm).
    apply match_index_iff in Hm as [Heq Hg].
    injection Heq as -> Heq.
    apply app_eq_inv in Heq as [(k & -> & Hk)|(k & -> & Hk)].
    + destruct k as [|y k].
      * exfalso. apply Hopen. exists [], g. by rewrite app_nil_r.
      * injection Hk as <- ->.
        destruct (IH (length k)) with (pre := k) as [ms Hms].
        -- simpl. rewrite length_app. simpl. lia.
        -- done.
        -- intros Hk. apply Hopen.
           apply (open_run_suffix (Byte.x00 :: g ++ [Byte.x00])) in Hk.
           simpl in Hk. by rewrite <- app_assoc in Hk.
        -- exists (g :: ms). simpl. f_equal. exact Hms.
    + destruct k as [|y k].
      * exfalso. apply Hopen. exists [], pre. by rewrite app_nil_r in Hg.
      * injection Hk as <- _. exfalso.
        by apply (digit_run_no_null _ pre k) in Hg.
  - rewrite (findall_skip _ _ Hm).
    destruct (IH (length pre)) with (pre := pre) as [ms Hms]; [simpl; lia | done | |].
    + intros Hk. apply Hopen. by apply (open_run_suffix [x]) in Hk.
    + by exists ms.
Qed.

Lemma int_of_digits_nonneg (g : bytes) :
  Forall (fun x => is_digit x = true) g → 0 <= int_of_digits g.
Proof.
  induction g as [|x g IH] using rev_ind; [done|].
  intros Hg. apply Forall_app in Hg as [Hg Hx]. inversion Hx as [|? ? Hd _].
  rewrite int_of_digits_snoc. apply is_digit_iff in Hd. specialize (IH Hg). lia.
Qed.

Lemma get_latest_index_nonneg (data : bytes) : -1 <= get_latest_index data.
Proof.
  unfold get_latest_index.
  pose proof (findall_digit_runs data) as Hr.
  destruct (last (findall index_pattern data)) as [m|] eqn:El; [|done].
  apply last_Some in El as [l' El]. rewrite El in Hr.
  apply Forall_app in Hr as [_ Hr]. inversion Hr as [|? ? [_ Hm] _].
  pose proof (int_of_digits_nonneg _ Hm). lia.
Qed.

Lemma get_latest_index_none (data : bytes) :
  get_latest_index data = -1 ↔ findall index_pattern data = [].
Proof.
  unfold get_latest_index. split.
  - pose proof (findall_digit_runs data) as Hr.
    destruct (last (findall index_pattern data)) as [m|] eqn:El.
    + apply last_Some in El as [l' El]. rewrite El in Hr.
      apply Forall_app in Hr as [_ Hr]. inversion Hr as [|? ? [_ Hm] _].
      pose proof (int_of_digits_nonneg _ Hm). lia.
    + intros _. by apply last_None in El.
  - by intros ->.
Qed.

(** The scan of [pre ++ 0x00 digs 0x00 ++ post] when nothing matches in
    [post] and the occurrence does not share its opening null byte. *)
Lemma get_latest_index_reaches (pre digs post : bytes) :
  digit_run digs → ¬ open_run pre →
  findall index_pattern post = [] →
  get_latest_index (pre ++ x00 ++ digs ++ x00 ++ post) = int_of_digits digs.
Proof.
  intros Hd Hopen Hpost.
  destruct (findall_reaches pre digs post Hd Hopen) as [ms Hms].
  unfold get_latest_index. rewrite Hms, Hpost.
  change (ms ++ [digs]) with (ms ++ [digs]). by rewrite last_snoc.
Qed.

(** ** The three-state reader decides occurrences *)

Lemma has_run_app (st : scan_state) (a b : bytes) :
  has_run st (a ++ b) = has_run st a || has_run (scan_after st a) b.
Proof.
  revert st. induction a as [|x a IH]; intros st; [done|].
  simpl. rewrite IH. by rewrite orb_assoc.
Qed.

Lemma scan_after_app (st : scan_state) (a b : bytes) :
  scan_after st (a ++ b) = scan_after (scan_after st a) b.
Proof. apply fold_left_app. Qed.

Lemma scan_next_digit (st : scan_state) (x : byte) :
  is_digit x = true → st ≠ Idle → scan_next st x = InDigits.
Proof.
  intros Hx Hst. unfold scan_next. rewrite (digit_not_null _ Hx), Hx.
  by destruct st.
Qed.

Lemma has_run_cons (st : scan_state) (x : byte) (s : bytes) :
  has_run st (x :: s)
  = (Byte.eqb x Byte.x00 && in_digits st) || has_run (scan_next st x) s.
Proof. reflexivity. Qed.

Lemma has_run_digits_null (g post : bytes) :
  Forall (fun x => is_digit x = true) g →
  has_run InDigits (g ++ x00 ++ post) = true.
Proof.
  induction 1 as [|x g Hx _ IH]; [done|].
  change ((x :: g) ++ ?t) with (x :: (g ++ t)).
  rewrite has_run_cons, scan_next_digit by done. rewrite IH. apply orb_true_r.
Qed.

Lemma has_run_complete (st : scan_state) (s pre g post : bytes) :
  occurrence s pre g post → has_run st s = true.
Proof.
  intros [-> [Hne Hg]]. rewrite has_run_app. apply orb_true_iff. right.
  destruct g as [|x g]; [done|]. inversion Hg as [|? ? Hx Hg']. subst.
  generalize (scan_after st pre). intros st'.
  change (x00 ++ (x :: g) ++ ?t) with (Byte.x00 :: x :: (g ++ t)).
  rewrite !has_run_cons. change (scan_next st' Byte.x00) with AfterNull.
  rewrite scan_next_digit by done.
  rewrite (has_run_digits_null g post Hg'). by rewrite !orb_true_r.
Qed.

Lemma has_run_sound (s : bytes) :
  (has_run Idle s = true → ∃ pre g post, occurrence s pre g post)
  ∧ (has_run AfterNull s = true → ∃ pre g post, occurrence (x00 ++ s) pre g post)
  ∧ (has_run InDigits s = true →
     ∀ g0, digit_run g0 → ∃ pre g post, occurrence (x00 ++ g0 ++ s) pre g post).
Proof.
  induction s as [|x s (IHi & IHa & IHd)]; [done|].
  simpl. unfold scan_next.
  destruct (Byte.eqb x Byte.x00) eqn:Hx0.
  - apply Byte.byte_dec_bl in Hx0 as ->. simpl. repeat split.
    + intros H. apply IHa in H. exact H.
    + intros H. destruct (IHa H) as (pre & g & post & Hocc).
      exists (Byte.x00 :: pre), g, post. by apply occurrence_cons.
    + intros _ g0 Hg0. exists [], g0, s. by apply occurrence_head.
  - simpl. destruct (is_digit x) eqn:Hd; repeat split.
    + intros H. destruct (IHi H) as (pre & g & post & Hocc).
      exists (x :: pre), g, post. by apply occurrence_cons.
    + intros H. apply (IHd H [x]). by apply digit_run_cons.
    + intros H g0 [Hne Hg0].
      destruct (IHd H (g0 ++ [x])) as (pre & g & post & Hocc).
      * split; [by destruct g0 |]. apply Forall_app. split; [done|].
        by repeat constructor.
      * exists pre, g, post. by rewrite <- app_assoc in Hocc.
    + intros H. destruct (IHi H) as (pre & g & post & Hocc).
      exists (x :: pre), g, post. by apply occurrence_cons.
    + intros H. destruct (IHi H) as (pre & g & post & Hocc).
      exists (Byte.x00 :: x :: pre), g, post. by do 2 apply occurrence_cons.
    + intros H g0 _. destruct (IHi H) as (pre & g & post & Hocc).
      exists (x00 ++ g0 ++ x :: pre), g, post.
      apply (occurrence_app (x00 ++ g0 ++ [x])) in Hocc.
      by rewrite <- !app_assoc in Hocc.
Qed.

Lemma has_run_iff (s : bytes) :
  has_run Idle s = true ↔ ∃ pre g post, occurrence s pre g post.
Proof.
  split.
  - apply has_run_sound.
  - intros (pre & g & post & H). by eapply has_run_complete.
Qed.

Lemma findall_nil_has_run (s : bytes) :
  findall index_pattern s = [] ↔ has_run Idle s = false.
Proof.
  rewrite findall_nil_iff. split.
  - intros Hno. destruct (has_run Idle s) eqn:E; [|done].
    apply has_run_iff in E as (pre & g & post & H). by apply Hno in H.
  - intros E pre g post H. apply (has_run_complete Idle) in H. congruence.
Qed.

Lemma scan_after_digits (st : scan_state) (g : bytes) :
  digit_run g → st ≠ Idle → scan_after st g = InDigits.
Proof.
  intros [Hne Hg]. revert st. induction Hg as [|x g Hx Hg IH]; intros st Hst; [done|].
  unfold scan_after. simpl. rewrite scan_next_digit by done.
  destruct g as [|y g]; [done|]. by apply IH.
Qed.

Lemma open_run_scan_after (pre : bytes) :
  open_run pre → scan_after Idle pre = InDigits.
Proof.
  intros (p & g & -> & Hg). rewrite scan_after_app.
  generalize (scan_after Idle p). intros st.
  unfold x00. change ([Byte.x00] ++ g) with (Byte.x00 :: g).
  unfold scan_after at 1. simpl. by apply scan_after_digits.
Qed.

Lemma not_open_run (pre : bytes) : scan_after Idle pre ≠ InDigits → ¬ open_run pre.
Proof. intros H Ho. by apply open_run_scan_after in Ho. Qed.

Lemma last_occurrence_intro (data pre digs post : bytes) :
  occurrence data pre digs post →
  has_run Idle (digs ++ x00 ++ post) = false →
  last_occurrence data pre digs post.
Proof.
  intros Hocc Hrun. split; [done|].
  intros pre' g' post' [Heq' Hg']. destruct Hocc as [-> Hg].
  destruct (decide (length pre' <= length pre)%nat) as [|Hlt]; [done|].
  exfalso. apply app_eq_inv in Heq' as [(k & -> & Hk)|(k & -> & Hk)].
  - rewrite length_app in Hlt. lia.
  - destruct k as [|y k]; [rewrite app_nil_r in Hlt; lia|].
    injection Hk as <- Hk.
    assert (occurrence (digs ++ x00 ++ post) k g' post') as Hocc by done.
    apply (has_run_complete Idle) in Hocc. congruence.
Qed.

Lemma last_occurrence_post (data pre digs post : bytes) :
  last_occurrence data pre digs post → findall index_pattern post = [].
Proof.
  intros [[-> Hg] Hlast]. apply findall_nil_iff. intros p g' q Hocc.
  apply (occurrence_app (pre ++ x00 ++ digs ++ x00)) in Hocc.
  rewrite <- !app_assoc in Hocc. apply Hlast in Hocc.
  rewrite !length_app in Hocc. simpl in Hocc. lia.
Qed.

(** ** What the encoder puts out *)

Ltac high_bytes :=
  repeat (apply List.Forall_cons;
          [rewrite byte_val_of_N; zify; Z.to_euclidean_division_equations; lia|]);
  apply List.Forall_nil.

Lemma utf8_char_bytes (c : N) (bs : bytes) :
  utf8_char c = Ok bs →
  ((c < 128)%N ∧ bs = [byte_of_N c])
  ∨ (bs ≠ [] ∧ Forall (fun b => 128 <= byte_val b) bs).
Proof.
  unfold utf8_char.
  destruct (c <? 0x80)%N eqn:E1.
  { apply N.ltb_lt in E1. intros [= <-]. by left. }
  apply N.ltb_ge in E1. intros H. right.
  destruct (c <? 0x800)%N eqn:E2.
  { apply N.ltb_lt in E2. injection H as <-. split; [done|].
    high_bytes. }
  destruct (c <? 0x10000)%N eqn:E3.
  { apply N.ltb_lt in E3. destruct (is_surrogate c); [done|]. injection H as <-.
    split; [done|]. high_bytes. }
  destruct (c <? 0x110000)%N eqn:E4; [|done].
  apply N.ltb_lt in E4. injection H as <-. split; [done|].
  high_bytes.
Qed.

Lemma encode_cons_inv (c : N) (s : str) (bs : bytes) :
  encode (c :: s) = Ok bs →
  ∃ bc rest, utf8_char c = Ok bc ∧ encode s = Ok rest ∧ bs = bc ++ rest.
Proof.
  simpl. intros H.
  apply bind_Ok_inv in H as (bc & Hc & H).
  apply bind_Ok_inv in H as (rest & Hr & H).
  injection H as <-. eauto.
Qed.

Lemma encode_null_free (s : str) (bs : bytes) :
  encode s = Ok bs → null_free s → Byte.x00 ∉ bs.
Proof.
  unfold null_free. revert bs. induction s as [|c s IH]; intros bs H Hs.
  - injection H as <-. apply not_elem_of_nil.
  - apply encode_cons_inv in H as (bc & rest & Hc & Hr & ->).
    apply not_elem_of_cons in Hs as [Hc0 Hs].
    apply not_elem_of_app. split; [|by apply IH].
    apply utf8_char_bytes in Hc as [[Hlt ->]|[_ Hhigh]].
    + intros Hin. apply list_elem_of_singleton in Hin.
      apply (f_equal byte_val) in Hin. rewrite byte_val_of_N in Hin by lia.
      change (byte_val Byte.x00) with 0 in Hin. lia.
    + intros Hin. rewrite Forall_forall in Hhigh. apply Hhigh in Hin.
      change (byte_val Byte.x00) with 0 in Hin. lia.
Qed.

Lemma encode_digits_inv (s : str) (bs : bytes) :
  encode s = Ok bs → Forall (fun x => is_digit x = true) bs →
  Forall (fun c => (48 <= c <= 57)%N) s.
Proof.
  revert bs. induction s as [|c s IH]; intros bs H Hd; [constructor|].
  apply encode_cons_inv in H as (bc & rest & Hc & Hr & ->).
  apply Forall_app in Hd as [Hbc Hrest].
  constructor; [|by eapply IH].
  apply utf8_char_bytes in Hc as [[Hlt ->]|[Hne Hhigh]].
  - inversion Hbc as [|? ? Hx _]. apply is_digit_iff in Hx.
    rewrite byte_val_of_N in Hx by lia. lia.
  - destruct bc as [|b bc]; [done|].
    inversion Hbc as [|? ? Hx _]. inversion Hhigh as [|? ? Hb _].
    apply is_digit_iff in Hx. lia.
Qed.

(** ** Reading the fields of a record *)

Lemma has_run_null_free (st : scan_state) (X : bytes) :
  Byte.x00 ∉ X → has_run st X = false.
Proof.
  revert st. induction X as [|x X IH]; intros st HX; [done|].
  apply not_elem_of_cons in HX as [Hx HX].
  rewrite has_run_cons, IH by done.
  destruct (Byte.eqb x Byte.x00) eqn:E; [|done].
  apply Byte.byte_dec_bl in E. congruence.
Qed.

Lemma scan_next_not_null (st : scan_state) (x : byte) :
  x ≠ Byte.x00 →
  scan_next st x = if is_digit x then match st with Idle => Idle | _ => InDigits end
                   else Idle.
Proof.
  intros Hx. unfold scan_next.
  destruct (Byte.eqb x Byte.x00) eqn:E; [|done].
  apply Byte.byte_dec_bl in E. congruence.
Qed.

Lemma scan_after_cons (st : scan_state) (x : byte) (X : bytes) :
  scan_after st (x :: X) = scan_after (scan_next st x) X.
Proof. reflexivity. Qed.

Lemma scan_after_idle (X : bytes) : Byte.x00 ∉ X → scan_after Idle X = Idle.
Proof.
  induction X as [|x X IH]; intros HX; [done|].
  apply not_elem_of_cons in HX as [Hx HX].
  rewrite scan_after_cons, scan_next_not_null by congruence.
  destruct (is_digit x); by apply IH.
Qed.

Lemma scan_after_in_digits (st : scan_state) (X : bytes) :
  Byte.x00 ∉ X → scan_after st X = InDigits →
  (X = [] ∧ st = InDigits) ∨ (st ≠ Idle ∧ digit_run X).
Proof.
  revert st. induction X as [|x X IH]; intros st HX Hst; [by left|].
  apply not_elem_of_cons in HX as [Hx HX]. right.
  rewrite scan_after_cons, scan_next_not_null in Hst by congruence.
  destruct (is_digit x) eqn:Hd.
  - destruct st.
    + by rewrite scan_after_idle in Hst.
    + split; [done|]. apply digit_run_cons; [done|].
      apply IH in Hst as [[-> _]|[_ [_ H]]]; done.
    + split; [done|]. apply digit_run_cons; [done|].
      apply IH in Hst as [[-> _]|[_ [_ H]]]; done.
  - by rewrite scan_after_idle in Hst.
Qed.

(** A null-terminated value that is not a run of digits gives no match
    with the null byte before it. *)
Lemma has_run_value (X t : bytes) :
  Byte.x00 ∉ X → ¬ digit_run X →
  has_run AfterNull (X ++ x00 ++ t) = has_run AfterNull t.
Proof.
  intros HX Hd. rewrite has_run_app, has_run_null_free by done.
  change (x00 ++ t) with (Byte.x00 :: t). rewrite has_run_cons.
  change (scan_next ?st Byte.x00) with AfterNull.
  destruct (scan_after AfterNull X) eqn:E; try done.
  apply scan_after_in_digits in E as [[_ ?]|[_ ?]]; done.
Qed.

Lemma has_run_idle_null_free (X t : bytes) :
  Byte.x00 ∉ X → has_run Idle (X ++ t) = has_run Idle t.
Proof.
  intros HX. by rewrite has_run_app, has_run_null_free, scan_after_idle.
Qed.

Lemma has_run_string_header (st : scan_state) (name : string) (t : bytes) :
  name = "appname"%string ∨ name = "exe"%string
  ∨ name = "StartDir"%string ∨ name = "icon"%string →
  has_run st (x01 ++ blit name ++ x00 ++ t) = has_run AfterNull t.
Proof. intros [->|[->|[->| ->]]]; by destruct st. Qed.

Lemma has_run_appid_header (st : scan_state) (t : bytes) :
  has_run st (x02 ++ blit "appid" ++ x00 ++ t) = has_run AfterNull t.
Proof. by destruct st. Qed.

Lemma has_run_grid (st : scan_state) (t : bytes) :
  has_run st (blit "/grid/" ++ t) = has_run Idle t.
Proof. by destruct st. Qed.

Lemma has_run_icon_tail (t : bytes) :
  has_run Idle (blit "_icon.ico" ++ x00 ++ x08 ++ t) = has_run Idle t.
Proof. reflexivity. Qed.

Lemma decimal_ascii_null_free (z : Z) : Byte.x00 ∉ decimal_ascii z.
Proof.
  assert (Hd : ∀ n, Byte.x00 ∉ List.map ascii_digit (decimal_digits n)).
  { intros n Hin. apply list_elem_of_fmap in Hin as (d & Hd & Hin).
    pose proof (digits_of_small (S (N.to_nat (N.size n))) n) as Hs.
    rewrite Forall_forall in Hs. apply Hs in Hin.
    apply (f_equal byte_val) in Hd. rewrite byte_val_ascii_digit in Hd by done.
    change (byte_val Byte.x00) with 0 in Hd. lia. }
  unfold decimal_ascii. destruct (z <? 0); [|apply Hd].
  apply not_elem_of_cons. split; [done | apply Hd].
Qed.

Lemma has_run_identifier (appid : Z) :
  quiet_identifier appid ↔ has_run AfterNull (uint32_le appid) = false.
Proof.
  split.
  - intros Hq. destruct (has_run AfterNull (uint32_le appid)) eqn:E; [|done].
    apply has_run_sound in E as (pre & g & post & H). by apply Hq in H.
  - intros E pre g post H. apply (has_run_complete Idle) in H.
    change (has_run Idle (x00 ++ ?t)) with (has_run AfterNull t) in H. congruence.
Qed.

(** After the index of a record, the scan finds what it finds in the
    bytes that follow the record. *)
Lemma has_run_record_fields (icon_dir name exe dir : bytes) (appid : Z) (t : bytes) :
  quiet_identifier appid →
  Byte.x00 ∉ icon_dir → Byte.x00 ∉ name → Byte.x00 ∉ exe → Byte.x00 ∉ dir →
  ¬ digit_run name → ¬ digit_run exe → ¬ digit_run dir →
  has_run Idle
    (int_field "appid" appid
     ++ string_field "appname" name
     ++ string_field "exe" exe
     ++ string_field "StartDir" dir
     ++ string_field "icon"
          (icon_dir ++ blit "/grid/" ++ decimal_ascii appid ++ blit "_icon.ico")
     ++ x08 ++ t)
  = has_run Idle t.
Proof.
  intros Hq Hc Hn He Hd Hnd Hed Hdd.
  apply has_run_identifier in Hq.
  unfold int_field, string_field. rewrite <- !app_assoc.
  rewrite has_run_appid_header, has_run_app, Hq. cbn [orb].
  rewrite has_run_string_header by tauto.
  rewrite has_run_value by done.
  rewrite has_run_string_header by tauto.
  rewrite has_run_value by done.
  rewrite has_run_string_header by tauto.
  rewrite has_run_value by done.
  rewrite has_run_string_header by tauto.
  rewrite has_run_app, has_run_null_free by done. cbn [orb].
  rewrite has_run_grid.
  rewrite has_run_idle_null_free by apply decimal_ascii_null_free.
  apply has_run_icon_tail.
Qed.

(** ** Scanning a store whose last record is plain *)

Lemma make_entry_inv (cfg : str) (index appid : Z) (appname exe startdir : str)
    (entry : bytes) :
  make_entry cfg index appid appname exe startdir = Ok entry →
  ∃ cfg_b name_b exe_b dir_b,
    0 <= appid < 2 ^ 32
    ∧ encode cfg = Ok cfg_b ∧ encode appname = Ok name_b
    ∧ encode exe = Ok exe_b ∧ encode startdir = Ok dir_b
    ∧ entry = record_layout cfg_b index appid name_b exe_b dir_b.
Proof.
  intros H. pose proof H as H0.
  unfold make_entry in H0. rewrite !encode_py_str in H0.
  cbn [mbind result_bind] in H0.
  destruct (decide (0 <= appid < 2 ^ 32)) as [Hid|Hid]; cycle 1.
  { by rewrite (struct_pack_I_range _ Hid) in H0. }
  rewrite (struct_pack_I_layout _ Hid) in H0. cbn [mbind result_bind] in H0.
  destruct (encode appname) as [name_b|] eqn:Hn; [|done].
  cbn [mbind result_bind] in H0.
  destruct (encode exe) as [exe_b|] eqn:He; [|done].
  cbn [mbind result_bind] in H0.
  destruct (encode startdir) as [dir_b|] eqn:Hd; [|done].
  cbn [mbind result_bind] in H0.
  destruct (encode cfg) as [cfg_b|] eqn:Hc; [|done].
  clear H0.
  rewrite (make_entry_layout _ _ _ _ _ _ _ _ _ _ Hid Hc Hn He Hd) in H.
  apply Ok_inj in H.
  exists cfg_b, name_b, exe_b, dir_b. by repeat (split; [done|]).
Qed.

Lemma encode_digit_run (s : str) (bs : bytes) :
  encode s = Ok bs → digit_run bs → digit_str s.
Proof.
  intros H [Hne Hd]. split.
  - intros ->. by injection H as <-.
  - by eapply encode_digits_inv.
Qed.

Lemma scan_after_snoc (st : scan_state) (s : bytes) (x : byte) :
  scan_after st (s ++ [x]) = scan_next (scan_after st s) x.
Proof. by rewrite scan_after_app. Qed.

(** A plain record at the end of a store is the last match, whatever
    precedes it, as long as its opening null byte is not shared. *)
Lemma scan_last_record (pre : bytes) (cfg : str) (index appid : Z)
    (appname exe startdir : str) (entry : bytes) :
  ¬ open_run pre →
  0 <= index →
  plain_record cfg appid appname exe startdir →
  make_entry cfg index appid appname exe startdir = Ok entry →
  get_latest_index (pre ++ entry ++ x08 ++ x08) = index.
Proof.
  intros Hpre Hidx (Hq & Hc0 & Hn0 & He0 & Hd0 & Hnd & Hed & Hdd) Hentry.
  apply make_entry_inv in Hentry
    as (cfg_b & name_b & exe_b & dir_b & Hid & Hc & Hn & He & Hd & ->).
  unfold record_layout. rewrite <- !app_assoc.
  rewrite get_latest_index_reaches.
  - by apply decimal_ascii_value.
  - by apply decimal_ascii_digit_run.
  - done.
  - apply findall_nil_has_run.
    pose proof (has_run_record_fields cfg_b name_b exe_b dir_b appid (x08 ++ x08))
      as Hf.
    rewrite Hf; [done | done | ..].
    + by eapply encode_null_free.
    + by eapply encode_null_free.
    + by eapply encode_null_free.
    + by eapply encode_null_free.
    + intros Hr. by apply Hnd, (encode_digit_run _ name_b).
    + intros Hr. by apply Hed, (encode_digit_run _ exe_b).
    + intros Hr. by apply Hdd, (encode_digit_run _ dir_b).
Qed.

Lemma make_entry_ends_x08 (cfg : str) (index appid : Z) (appname exe startdir : str)
    (entry : bytes) :
  make_entry cfg index appid appname exe startdir = Ok entry →
  ∃ body, entry = body ++ x08.
Proof.
  intros H. apply make_entry_inv in H as (? & ? & ? & ? & _ & _ & _ & _ & _ & ->).
  unfold record_layout, string_field.
  eexists. rewrite !app_assoc. reflexivity.
Qed.

Lemma not_open_run_x08 (body : bytes) : ¬ open_run (body ++ x08).
Proof.
  apply not_open_run. unfold x08. rewrite scan_after_snoc.
  by destruct (scan_after Idle body).
Qed.

(** ** The identifier *)

Lemma appid_bits (c : Z) :
  let v := Z.lor 0x80000000 (Z.land c 0xFFFFFFFF) in
  Z.testbit v 31 = true ∧ 2 ^ 31 <= v < 2 ^ 32.
Proof.
  intros v.
  assert (Hm : 0 <= Z.land c 0xFFFFFFFF < 2 ^ 32).
  { change 0xFFFFFFFF with (Z.ones 32). rewrite Z.land_ones by lia.
    apply Z.mod_pos_bound. lia. }
  assert (Hbit : Z.testbit v 31 = true).
  { unfold v. rewrite Z.lor_spec. change 0x80000000 with (2 ^ 31).
    by rewrite Z.pow2_bits_true by lia. }
  assert (Hnn : 0 <= v) by (apply Z.lor_nonneg; lia).
  assert (Hlow : 2 ^ 31 <= v).
  { pose proof (Z.testbit_spec' v 31 ltac:(lia)) as Hs.
    rewrite Hbit in Hs. simpl Z.b2z in Hs.
    assert (v / 2 ^ 31 <> 0) by (intros E; rewrite E in Hs; discriminate Hs).
    assert (0 <= v / 2 ^ 31) by (apply Z.div_pos; lia).
    pose proof (Z.mul_div_le v (2 ^ 31) ltac:(lia)). lia. }
  split; [done|]. split; [done|].
  - apply Z.log2_lt_pow2; [lia|].
    unfold v. rewrite Z.log2_lor by lia.
    change (Z.log2 0x80000000) with 31.
    destruct (Z.eq_dec (Z.land c 0xFFFFFFFF) 0) as [->|Hnz]; [simpl; lia|].
    assert (Z.log2 (Z.land c 0xFFFFFFFF) < 32) by (apply Z.log2_lt_pow2; lia).
    lia.
Qed.

Lemma compute_appid_Ok (name exe : str) (bn be : bytes) :
  encode name = Ok bn → encode exe = Ok be →
  compute_appid name exe
  = Ok (Z.lor 0x80000000 (Z.land (crc32 (bn ++ be)) 0xFFFFFFFF)).
Proof.
  intros Hn He. unfold compute_appid. by rewrite (encode_app_Ok _ _ _ _ Hn He).
Qed.

Lemma compute_appid_range (name exe : str) (v : Z) :
  compute_appid name exe = Ok v → 2 ^ 31 <= v < 2 ^ 32.
Proof.
  unfold compute_appid. intros H. apply bind_Ok_inv in H as (enc & _ & H).
  apply Ok_inj in H as <-. apply appid_bits.
Qed.

(** ** The splice *)

Lemma endswith_iff {A : Type} `{EqDecision A} (s suf : list A) :
  endswith s suf = true ↔ ∃ pre, s = pre ++ suf.
Proof.
  unfold endswith. rewrite bool_decide_eq_true. split.
  - intros [Hd _]. exists (take (length s - length suf) s).
    transitivity (take (length s - length suf) s ++ drop (length s - length suf) s).
    + by rewrite take_drop.
    + by rewrite Hd.
  - intros [pre ->]. rewrite length_app. split; [|lia].
    replace (length pre + length suf - length suf)%nat with (length pre) by lia.
    by rewrite drop_app_length.
Qed.

Lemma splice_Some (pre entry : bytes) :
  splice (pre ++ x08 ++ x08) entry = Some (pre ++ entry ++ x08 ++ x08).
Proof.
  unfold splice.
  replace (endswith (pre ++ x08 ++ x08) (x08 ++ x08)) with true
    by (symmetry; apply endswith_iff; eauto).
  rewrite length_app. simpl length.
  replace (length pre + 2 - 2)%nat with (length pre) by lia.
  by rewrite take_app_length.
Qed.

Lemma splice_None (data entry : bytes) :
  (∀ pre, data ≠ pre ++ x08 ++ x08) → splice data entry = None.
Proof.
  intros Hbad. unfold splice.
  destruct (endswith data (x08 ++ x08)) eqn:E; [|done].
  apply endswith_iff in E as [pre ->]. by destruct (Hbad pre).
Qed.

(** ** Checks on sample inputs *)

Example crc32_check : crc32 (blit "123456789") = 0xCBF43926.
Proof. vm_compute. reflexivity. Qed.

Example sample_record_layout : sample_record 0 "A" = Ok (sample_bytes 0 "A").
Proof. vm_compute. reflexivity. Qed.

Example sample_record_bytes :
  sample_bytes 0 "A"
  = x00 ++ blit "0" ++ x00
    ++ x02 ++ blit "appid" ++ x00 ++ [Byte.x01; Byte.x00; Byte.x00; Byte.x80]
    ++ x01 ++ blit "appname" ++ x00 ++ blit "A" ++ x00
    ++ x01 ++ blit "exe" ++ x00 ++ blit "/x" ++ x00
    ++ x01 ++ blit "StartDir" ++ x00 ++ blit "/d" ++ x00
    ++ x01 ++ blit "icon" ++ x00 ++ blit "/c/grid/2147483649_icon.ico" ++ x00
    ++ x08.
Proof. vm_compute. reflexivity. Qed.

Lemma sample_plain (name : string) :
  bool_decide (null_free (slit name)) = true →
  bool_decide (digit_str (slit name)) = false →
  plain_record (slit "/c") 0x80000001 (slit name) (slit "/x") (slit "/d").
Proof.
  intros Hn Hd. apply bool_decide_eq_true in Hn. apply bool_decide_eq_false in Hd.
  split; [by apply has_run_identifier|].
  repeat split; try done; try (by apply bool_decide_unpack);
    by apply (bool_decide_eq_false _).
Qed.

(** * The claims *)

(** C1.  For every index, every identifier that fits 32 unsigned bits and
    all texts the encoder accepts, [make_entry] returns exactly: 0x00, the
    index in decimal ASCII, 0x00; tag 0x02, "appid", 0x00 and the
    identifier as four little-endian bytes; the tag-0x01 fields "appname",
    "exe", "StartDir" and "icon" in that order, each as tag, name, 0x00,
    UTF-8 value, 0x00, the icon value being the icon directory, "/grid/",
    the identifier in decimal and "_icon.ico"; then one 0x08.  The four
    identifier bytes carry the identifier least significant byte first,
    and the index numeral of a non-negative index reads back as the
    index. *)
Theorem make_entry_exact_bytes (cfg : str) (index appid : Z)
    (appname exe startdir : str) (cfg_b name_b exe_b dir_b : bytes) :
  0 <= appid < 2 ^ 32 →
  encode cfg = Ok cfg_b →
  encode appname = Ok name_b →
  encode exe = Ok exe_b →
  encode startdir = Ok dir_b →
  make_entry cfg index appid appname exe startdir
  = Ok (record_layout cfg_b index appid name_b exe_b dir_b)
  ∧ (∃ b0 b1 b2 b3,
       uint32_le appid = [b0; b1; b2; b3]
       ∧ byte_val b0 + 256 * byte_val b1 + 65536 * byte_val b2
         + 16777216 * byte_val b3 = appid)
  ∧ (0 <= index →
     digit_run (decimal_ascii index) ∧ int_of_digits (decimal_ascii index) = index).
Proof.
  intros Hid Hc Hn He Hd. split; [by apply make_entry_layout|].
  split; [by apply uint32_le_value|].
  intros Hi. split; [by apply decimal_ascii_digit_run | by apply decimal_ascii_value].
Qed.

Lemma make_entry_exact_bytes_witness :
  make_entry (slit "/c") 0 0x80000001 (slit "A") (slit "/x") (slit "/d")
  = Ok (record_layout (blit "/c") 0 0x80000001 (blit "A") (blit "/x") (blit "/d")).
Proof.
  apply (make_entry_exact_bytes (slit "/c") 0 0x80000001 (slit "A") (slit "/x")
           (slit "/d") (blit "/c") (blit "A") (blit "/x") (blit "/d"));
    [lia | reflexivity ..].
Defined.

(** C2 (amended).  Inserting one record (index 0, any identifier) into
    the empty store 0x00 "shortcuts" 0x00 0x08 0x08 gives a store that
    still ends with 0x08 0x08; its length is the length of the empty store
    plus the length of the encoded record, since the two close bytes that
    are removed are appended again. *)
Theorem insert_into_empty_store (cfg : str) (appid : Z)
    (appname exe startdir : str) (entry : bytes) :
  make_entry cfg 0 appid appname exe startdir = Ok entry →
  ∃ new_data,
    splice empty_store entry = Some new_data
    ∧ (∃ body, new_data = body ++ x08 ++ x08)
    ∧ length new_data = (length empty_store + length entry)%nat
    ∧ new_data = store_of [entry].
Proof.
  intros _. exists (x00 ++ blit "shortcuts" ++ x00 ++ entry ++ x08 ++ x08).
  split; [|split; [|split]].
  - apply (splice_Some (x00 ++ blit "shortcuts" ++ x00) entry).
  - exists (x00 ++ blit "shortcuts" ++ x00 ++ entry). by rewrite <- !app_assoc.
  - change (length empty_store) with 13%nat. rewrite !length_app.
    change (length x00) with 1%nat. change (length x08) with 1%nat.
    change (length (blit "shortcuts")) with 9%nat. lia.
  - unfold store_of. simpl concat. by rewrite app_nil_r.
Qed.

Lemma insert_into_empty_store_witness :
  sample_record 0 "A" = Ok (sample_bytes 0 "A")
  ∧ ∃ new_data,
      splice empty_store (sample_bytes 0 "A") = Some new_data
      ∧ (∃ body, new_data = body ++ x08 ++ x08)
      ∧ length new_data = (length empty_store + length (sample_bytes 0 "A"))%nat
      ∧ new_data = store_of [sample_bytes 0 "A"].
Proof.
  split; [reflexivity|].
  apply (insert_into_empty_store (slit "/c") 0x80000001 (slit "A") (slit "/x")
           (slit "/d") (sample_bytes 0 "A")).
  reflexivity.
Defined.

(** C2 as stated fails: with index 0 and identifier 0x80000001 the encoded
    record has 81 bytes and the new store 94, not 13 - 2 + 81. *)
Lemma insert_length_counterexample :
  sample_record 0 "A" = Ok (sample_bytes 0 "A")
  ∧ length empty_store = 13%nat
  ∧ length (sample_bytes 0 "A") = 81%nat
  ∧ ∃ new_data,
      splice empty_store (sample_bytes 0 "A") = Some new_data
      ∧ length new_data = 94%nat
      ∧ length new_data
        ≠ (length empty_store - 2 + length (sample_bytes 0 "A"))%nat.
Proof.
  split; [reflexivity|]. split; [reflexivity|]. split; [reflexivity|].
  eexists. split; [reflexivity|]. split; [reflexivity|].
  vm_compute. lia.
Qed.

(** C4 (amended).  For every byte buffer the scan returns -1 exactly when
    the buffer holds no occurrence of a null byte, one or more ASCII
    digits and a null byte; it returns the integer value of the last
    occurrence whenever the opening null byte of that occurrence does not
    also end a null-digits run before it (matches do not overlap).  On the
    empty store it returns -1, and on a store that holds records with
    indices 0, 2 and 5 in that order, the last of them plain, it
    returns 5. *)
Theorem scan_last_match :
  (∀ data, get_latest_index data = -1 ↔ ∀ pre g post, ¬ occurrence data pre g post)
  ∧ (∀ data pre digs post,
       last_occurrence data pre digs post → ¬ open_run pre →
       get_latest_index data = int_of_digits digs)
  ∧ get_latest_index empty_store = -1
  ∧ (∀ cfg a0 n0 x0 d0 a2 n2 x2 d2 a5 n5 x5 d5 e0 e2 e5,
       make_entry cfg 0 a0 n0 x0 d0 = Ok e0 →
       make_entry cfg 2 a2 n2 x2 d2 = Ok e2 →
       make_entry cfg 5 a5 n5 x5 d5 = Ok e5 →
       plain_record cfg a5 n5 x5 d5 →
       get_latest_index (store_of [e0; e2; e5]) = 5).
Proof.
  split; [|split; [|split]].
  - intros data. by rewrite get_latest_index_none, findall_nil_iff.
  - intros data pre digs post Hlast Hopen.
    pose proof (last_occurrence_post _ _ _ _ Hlast) as Hpost.
    destruct Hlast as [[-> Hd] _].
    by apply get_latest_index_reaches.
  - reflexivity.
  - intros cfg a0 n0 x0 d0 a2 n2 x2 d2 a5 n5 x5 d5 e0 e2 e5 H0 H2 H5 Hplain.
    apply make_entry_ends_x08 in H2 as [body ->].
    unfold store_of. simpl concat. rewrite app_nil_r.
    replace (x00 ++ blit "shortcuts" ++ x00 ++ (e0 ++ (body ++ x08) ++ e5) ++ x08 ++ x08)
      with ((x00 ++ blit "shortcuts" ++ x00 ++ e0 ++ body) ++ x08 ++ e5 ++ x08 ++ x08)
      by (by rewrite <- !app_assoc).
    rewrite (app_assoc _ x08).
    apply (scan_last_record _ cfg 5 a5 n5 x5 d5); [apply not_open_run_x08 | lia | done..].
Qed.

Lemma scan_last_match_witness :
  last_occurrence (x00 ++ blit "7" ++ x00 ++ x08) [] (blit "7") x08
  ∧ ¬ open_run []
  ∧ get_latest_index (x00 ++ blit "7" ++ x00 ++ x08) = 7.
Proof.
  assert (H1 : last_occurrence (x00 ++ blit "7" ++ x00 ++ x08) [] (blit "7") x08).
  { apply last_occurrence_intro; [|reflexivity].
    split; [reflexivity|]. split; [done|]. by repeat constructor. }
  assert (H2 : ¬ open_run []) by (by apply not_open_run).
  split; [exact H1|]. split; [exact H2|].
  exact (proj1 (proj2 scan_last_match) _ _ _ _ H1 H2).
Defined.

(** C4 as stated fails on 0x00 '0' 0x00 '1' 0x00: the last occurrence is
    0x00 '1' 0x00, of value 1, and the scan returns 0. *)
Lemma scan_last_occurrence_counterexample :
  last_occurrence (x00 ++ blit "0" ++ x00 ++ blit "1" ++ x00)
    (x00 ++ blit "0") (blit "1") []
  ∧ int_of_digits (blit "1") = 1
  ∧ get_latest_index (x00 ++ blit "0" ++ x00 ++ blit "1" ++ x00) = 0.
Proof.
  split; [|split; reflexivity].
  apply last_occurrence_intro; [|reflexivity].
  split; [reflexivity|]. split; [done|]. by repeat constructor.
Qed.

Lemma digit_run_null_free (g : bytes) : digit_run g → Byte.x00 ∉ g.
Proof.
  intros [_ Hg] Hin. rewrite Forall_forall in Hg. by apply Hg in Hin.
Qed.

(** C10.  Matches do not overlap: when two null-digits-null runs share a
    null byte, the second run is not found.  On 0x00 d1 0x00 d2 0x00 the
    only match is [d1]; on 0x00 '0' 0x00 '1' 0x00 the scan returns 0,
    not 1. *)
Theorem shared_null_second_run_missed :
  (∀ d1 d2, digit_run d1 → digit_run d2 →
     findall index_pattern (x00 ++ d1 ++ x00 ++ d2 ++ x00) = [d1]
     ∧ get_latest_index (x00 ++ d1 ++ x00 ++ d2 ++ x00) = int_of_digits d1)
  ∧ get_latest_index (x00 ++ blit "0" ++ x00 ++ blit "1" ++ x00) = 0.
Proof.
  split; [|reflexivity].
  intros d1 d2 H1 H2.
  assert (Hf : findall index_pattern (x00 ++ d1 ++ x00 ++ d2 ++ x00) = [d1]).
  { rewrite (findall_match _ d1 (d2 ++ x00)) by (by apply match_index_iff).
    f_equal. apply findall_nil_has_run.
    rewrite has_run_idle_null_free by (by apply digit_run_null_free).
    reflexivity. }
  split; [done|]. unfold get_latest_index. by rewrite Hf.
Qed.

Lemma shared_null_second_run_missed_witness :
  digit_run (blit "12") ∧ digit_run (blit "34")
  ∧ findall index_pattern (x00 ++ blit "12" ++ x00 ++ blit "34" ++ x00) = [blit "12"]
  ∧ get_latest_index (x00 ++ blit "12" ++ x00 ++ blit "34" ++ x00) = 12.
Proof.
  assert (H1 : digit_run (blit "12")) by (split; [done | by repeat constructor]).
  assert (H2 : digit_run (blit "34")) by (split; [done | by repeat constructor]).
  split; [exact H1|]. split; [exact H2|].
  exact (proj1 shared_null_second_run_missed _ _ H1 H2).
Defined.

(** C7 (amended).  Round trip: for every record with a non-negative index
    that the encoder accepts and that is plain (the null byte before the
    identifier and the identifier's four bytes hold no null-digits-null
    run; the texts are free of U+0000; display name, launch command and
    working directory are not non-empty runs of ASCII digits), the scan of
    the store that holds only that record returns that record's index. *)
Theorem scan_single_record (cfg : str) (index appid : Z)
    (appname exe startdir : str) (entry : bytes) :
  0 <= index →
  plain_record cfg appid appname exe startdir →
  make_entry cfg index appid appname exe startdir = Ok entry →
  get_latest_index (store_of [entry]) = index.
Proof.
  intros Hi Hplain Hentry. unfold store_of. simpl concat. rewrite app_nil_r.
  rewrite !(app_assoc _ _ (entry ++ _)), <- (app_assoc x00).
  apply (scan_last_record _ cfg index appid appname exe startdir); try done.
  by apply not_open_run.
Qed.

Lemma scan_single_record_witness :
  0 <= 3
  ∧ plain_record (slit "/c") 0x80000001 (slit "A") (slit "/x") (slit "/d")
  ∧ sample_record 3 "A" = Ok (sample_bytes 3 "A")
  ∧ get_latest_index (store_of [sample_bytes 3 "A"]) = 3.
Proof.
  assert (Hp : plain_record (slit "/c") 0x80000001 (slit "A") (slit "/x") (slit "/d"))
    by (by apply sample_plain).
  split; [lia|]. split; [exact Hp|]. split; [reflexivity|].
  apply (scan_single_record (slit "/c") 3 0x80000001 (slit "A") (slit "/x")
           (slit "/d") (sample_bytes 3 "A")); [lia | exact Hp | reflexivity].
Defined.

(** C7 as stated fails for a record whose display name is "7": index 0,
    identifier 0x80000001, texts free of U+0000, and the scan of the
    store that holds only that record returns 7. *)
Lemma roundtrip_counterexample :
  sample_record 0 "7" = Ok (sample_bytes 0 "7")
  ∧ null_free (slit "/c") ∧ null_free (slit "7")
  ∧ null_free (slit "/x") ∧ null_free (slit "/d")
  ∧ get_latest_index (store_of [sample_bytes 0 "7"]) = 7.
Proof.
  split; [reflexivity|].
  repeat (split; [apply (bool_decide_unpack _); vm_compute; exact I|]).
  reflexivity.
Qed.


(** C6.  For every display name and launch command the encoder accepts,
    the identifier is 0x80000000 or-ed with the CRC-32 of the UTF-8 bytes
    of the name immediately followed by those of the command, masked to
    32 bits; bit 31 of it is set, it fits 32 unsigned bits, and equal
    inputs give equal identifiers. *)
Theorem identifier_hash (name exe : str) (bn be : bytes) :
  encode name = Ok bn →
  encode exe = Ok be →
  ∃ v,
    compute_appid name exe = Ok v
    ∧ v = Z.lor 0x80000000 (Z.land (crc32 (bn ++ be)) 0xFFFFFFFF)
    ∧ Z.testbit v 31 = true
    ∧ 2 ^ 31 <= v < 2 ^ 32
    ∧ ∀ v', compute_appid name exe = Ok v' → v' = v.
Proof.
  intros Hn He. eexists. split; [by apply compute_appid_Ok|].
  split; [done|].
  split; [apply appid_bits|]. split; [apply appid_bits|].
  intros v' Hv'. rewrite (compute_appid_Ok _ _ _ _ Hn He) in Hv'.
  by apply Ok_inj in Hv'.
Qed.

Lemma identifier_hash_witness :
  encode APPNAME = Ok (blit "Minecraft Splitscreen")
  ∧ encode (slit "/x") = Ok (blit "/x")
  ∧ ∃ v,
      compute_appid APPNAME (slit "/x") = Ok v
      ∧ v = Z.lor 0x80000000
              (Z.land (crc32 (blit "Minecraft Splitscreen" ++ blit "/x")) 0xFFFFFFFF)
      ∧ Z.testbit v 31 = true
      ∧ 2 ^ 31 <= v < 2 ^ 32
      ∧ ∀ v', compute_appid APPNAME (slit "/x") = Ok v' → v' = v.
Proof.
  split; [reflexivity|]. split; [reflexivity|].
  apply (identifier_hash APPNAME (slit "/x")); reflexivity.
Defined.

(** C5.  The index given to a new record is the last match of the scan
    plus one, which is at least 0 but is not the maximum index of the
    store plus one when the records are not in increasing order: in the
    store that holds a record of index 1 and then a record of index 0,
    the maximum plus one is 2 and the script assigns 1, an index the store
    already holds. *)
Theorem next_index_follows_last_match :
  (∀ data, 0 <= get_latest_index data + 1)
  ∧ sample_record 1 "A" = Ok (sample_bytes 1 "A")
  ∧ sample_record 0 "A" = Ok (sample_bytes 0 "A")
  ∧ endswith (store_of [sample_bytes 1 "A"; sample_bytes 0 "A"]) (x08 ++ x08) = true
  ∧ stored_indices (store_of [sample_bytes 1 "A"; sample_bytes 0 "A"]) = [1; 0]
  ∧ max_index (store_of [sample_bytes 1 "A"; sample_bytes 0 "A"]) + 1 = 2
  ∧ get_latest_index (store_of [sample_bytes 1 "A"; sample_bytes 0 "A"]) + 1 = 1.
Proof.
  split.
  - intros data. pose proof (get_latest_index_nonneg data). lia.
  - repeat split; vm_compute; reflexivity.
Qed.

(** ** Paths *)

Lemma endswith_snoc_ne {A : Type} `{EqDecision A} (s : list A) (x y : A) :
  x ≠ y → endswith (s ++ [x]) [y] = false.
Proof.
  intros Hne. destruct (endswith (s ++ [x]) [y]) eqn:E; [|done].
  apply endswith_iff in E as [pre E]. apply app_inj_tail in E as [_ E]. done.
Qed.

Lemma join2_plain (path b : str) (x : N) (body : str) :
  path = body ++ [x] → x ≠ sep → starts_with_sep b = false →
  join2 path b = path ++ [sep] ++ b.
Proof.
  intros -> Hx Hb. unfold join2. rewrite Hb.
  rewrite (endswith_snoc_ne body x sep Hx).
  replace (bool_decide (body ++ [x] = [])) with false; [done|].
  symmetry. apply bool_decide_eq_false. by destruct body.
Qed.

Lemma config_dir_shape (e : env) : ∃ q, config_dir e = q ++ slit "confi" ++ [103%N].
Proof.
  unfold config_dir, join. simpl fold_left.
  generalize (join2 (userdata e) (user_id e)). intros p.
  unfold join2. change (starts_with_sep (slit "config")) with false. cbn iota.
  destruct (bool_decide (p = []) || endswith p [sep]).
  - by exists p.
  - exists (p ++ [sep]). by rewrite <- app_assoc.
Qed.

Lemma shortcuts_file_eq (e : env) :
  shortcuts_file e = config_dir e ++ [sep] ++ slit "shortcuts.vdf".
Proof.
  destruct (config_dir_shape e) as [q Hq].
  unfold shortcuts_file, join. simpl fold_left.
  apply (join2_plain _ _ 103%N (q ++ slit "confi")); [|done..].
  by rewrite Hq, <- app_assoc.
Qed.

Lemma grid_dir_eq (e : env) : grid_dir e = config_dir e ++ [sep] ++ slit "grid".
Proof.
  destruct (config_dir_shape e) as [q Hq].
  unfold grid_dir, join. simpl fold_left.
  change (join2 (join2 (userdata e) (user_id e)) (slit "config")) with (config_dir e).
  apply (join2_plain _ _ 103%N (q ++ slit "confi")); [|done..].
  by rewrite Hq, <- app_assoc.
Qed.

Lemma py_str_head (z : Z) : ∃ c rest, py_str z = c :: rest ∧ c ≠ sep.
Proof.
  unfold py_str. destruct (z <? 0).
  - by eexists _, _.
  - unfold decimal_digits.
    pose proof (digits_of_nonempty (N.to_nat (N.size (Z.to_N z))) (Z.to_N z)) as Hne.
    destruct (digits_of _ _) as [|d ds]; [done|].
    exists (digit_char d), (List.map digit_char ds). split; [done|].
    unfold digit_char, sep. lia.
Qed.

(** Each artwork file lies in the grid directory under its own name. *)
Lemma asset_path_eq (grid appid_s suffix url : str) :
  starts_with_sep appid_s = false → appid_s ≠ [] →
  ∃ ext, (ext = slit ".png" ∨ ext = slit ".ico")
         ∧ (endswith url (slit ".ico") = false → ext = slit ".png")
         ∧ (endswith url (slit ".ico") = true → ext = slit ".ico")
         ∧ asset_path grid appid_s suffix url
           = join2 grid [] ++ appid_s ++ suffix ++ ext.
Proof.
  intros Hs Hne. unfold asset_path, join. simpl fold_left.
  assert (Hj : ∀ name, starts_with_sep (appid_s ++ name) = false
                       ∧ join2 grid (appid_s ++ name) = join2 grid [] ++ appid_s ++ name).
  { intros name. destruct appid_s as [|c r]; [done|]. split; [exact Hs|].
    unfold join2. change (starts_with_sep ((c :: r) ++ name)) with (starts_with_sep (c :: r)).
    rewrite Hs. simpl starts_with_sep. cbn iota.
    destruct (bool_decide (grid = []) || endswith grid [sep]).
    - by rewrite app_nil_r.
    - by rewrite <- !app_assoc. }
  destruct (endswith url (slit ".ico")); simpl negb; cbn iota.
  - exists (slit ".ico"). repeat split; try done; [by right | apply Hj].
  - exists (slit ".png"). repeat split; try done; [by left | apply Hj].
Qed.

Lemma py_str_not_sep (z : Z) : starts_with_sep (py_str z) = false ∧ py_str z ≠ [].
Proof.
  destruct (py_str_head z) as (c & rest & -> & Hc). split; [|done].
  by apply bool_decide_eq_false.
Qed.

Lemma variant_path_eq (grid : str) (appid : Z) (v : str * str) :
  ∃ ext, (endswith v.2 (slit ".ico") = false → ext = slit ".png")
         ∧ (endswith v.2 (slit ".ico") = true → ext = slit ".ico")
         ∧ variant_path grid appid v
           = join2 grid [] ++ py_str appid ++ v.1 ++ ext.
Proof.
  destruct (py_str_not_sep appid) as [Hs Hne].
  destruct (asset_path_eq grid (py_str appid) v.1 v.2 Hs Hne)
    as (ext & _ & H1 & H2 & H3).
  by exists ext.
Qed.

Lemma variant_paths (grid : str) (appid : Z) :
  List.map (variant_path grid appid) STEAMGRIDDB_IMAGES
  = List.map (fun n => join2 grid [] ++ py_str appid ++ n)
      [slit "p.png"; slit ".png"; slit "_hero.png"; slit "_logo.png";
       slit "_icon.ico"].
Proof.
  assert (Hv : ∀ suffix url ext n,
             endswith url (slit ".ico") = ext → 
             n = suffix ++ (if ext then slit ".ico" else slit ".png") →
             variant_path grid appid (suffix, url)
             = join2 grid [] ++ py_str appid ++ n).
  { intros suffix url ext n He ->.
    destruct (variant_path_eq grid appid (suffix, url)) as (x & H1 & H2 & ->).
    simpl in *. destruct ext; [by rewrite (H2 He) | by rewrite (H1 He)]. }
  unfold STEAMGRIDDB_IMAGES. cbn [List.map].
  repeat (f_equal; [eapply Hv; [vm_compute; reflexivity | reflexivity]|]).
  f_equal. eapply Hv; [vm_compute; reflexivity | reflexivity].
Qed.

Lemma variant_paths_NoDup (grid : str) (appid : Z) :
  NoDup (List.map (variant_path grid appid) STEAMGRIDDB_IMAGES).
Proof.
  rewrite variant_paths.
  change (NoDup ((fun n => join2 grid [] ++ py_str appid ++ n)
                   <$> [slit "p.png"; slit ".png"; slit "_hero.png";
                        slit "_logo.png"; slit "_icon.ico"])).
  apply NoDup_fmap_2.
  - intros a b Hab. by do 2 apply app_inv_head in Hab.
  - by apply (bool_decide_unpack _).
Qed.

Lemma variant_path_not_store (e : env) (appid : Z) (v : str * str) :
  variant_path (grid_dir e) appid v ≠ shortcuts_file e.
Proof.
  destruct (variant_path_eq (grid_dir e) appid v) as (ext & _ & _ & ->).
  rewrite shortcuts_file_eq, grid_dir_eq.
  unfold join2. change (starts_with_sep []) with false. cbn iota.
  destruct (bool_decide _ || endswith _ _);
    rewrite <- !app_assoc; intros H; apply app_inv_head in H; discriminate H.
Qed.

(** ** One variant *)

Lemma exists_file_emit (p : str) (ev : event) (w : world) :
  exists_file p (emit ev w) = exists_file p w.
Proof. reflexivity. Qed.

Lemma exists_file_true (p : str) (w : world) :
  exists_file p w = true ↔ is_Some (fs w !! p).
Proof. apply bool_decide_eq_true. Qed.

Lemma exists_file_false (p : str) (w : world) :
  exists_file p w = false ↔ fs w !! p = None.
Proof.
  unfold exists_file. rewrite bool_decide_eq_false. split.
  - intros H. by apply eq_None_not_Some.
  - intros H. by apply eq_None_not_Some.
Qed.

Lemma sync_one_cases (net : str → response) (grid : str) (appid : Z)
    (w : world) (v : str * str) :
  let path := variant_path grid appid v in
  (exists_file path w = true
   ∧ sync_one net grid appid w v = emit (Skipping v.1) w)
  ∨ (exists_file path w = false
     ∧ ((net v.2 = UrlError
         ∧ sync_one net grid appid w v
           = emit (FailedDownload v.1) (emit (Downloading v.2) w))
        ∨ (net v.2 = ReadError
           ∧ sync_one net grid appid w v
             = emit (FailedDownload v.1)
                 (write_file path [] (emit (Downloading v.2) w)))
        ∨ (∃ b, net v.2 = Body b
                ∧ sync_one net grid appid w v
                  = emit (Saved v.1)
                      (write_file path b (emit (Downloading v.2) w))))).
Proof.
  destruct v as [suffix url]. unfold variant_path, sync_one. simpl.
  destruct (exists_file _ w) eqn:E; [by left|]. right. split; [done|].
  destruct (net url) as [| |b]; eauto.
Qed.

Lemma sync_one_skip (net : str → response) (grid : str) (appid : Z)
    (w : world) (v : str * str) :
  exists_file (variant_path grid appid v) w = true →
  sync_one net grid appid w v = emit (Skipping v.1) w.
Proof.
  intros E. destruct (sync_one_cases net grid appid w v) as [[_ H]|[H _]];
    [done | congruence].
Qed.

Lemma sync_one_events (net : str → response) (grid : str) (appid : Z)
    (w : world) (v : str * str) :
  ∃ evs, out (sync_one net grid appid w v) = out w ++ evs
         ∧ reported evs = [v.1].
Proof.
  destruct (sync_one_cases net grid appid w v)
    as [[_ ->]|[_ [[_ ->]|[[_ ->]|(b & _ & ->)]]]]; simpl.
  - by exists [Skipping v.1].
  - exists [Downloading v.2; FailedDownload v.1]. by rewrite <- app_assoc.
  - exists [Downloading v.2; FailedDownload v.1]. by rewrite <- app_assoc.
  - exists [Downloading v.2; Saved v.1]. by rewrite <- app_assoc.
Qed.

Lemma sync_one_lookup (net : str → response) (grid : str) (appid : Z)
    (w : world) (v : str * str) (p : str) :
  p ≠ variant_path grid appid v ∨ is_Some (fs w !! p) →
  fs (sync_one net grid appid w v) !! p = fs w !! p.
Proof.
  intros Hp.
  destruct (sync_one_cases net grid appid w v)
    as [[_ ->]|[E [[_ ->]|[[_ ->]|(b & _ & ->)]]]]; simpl; try done.
  - apply lookup_insert_ne. destruct Hp as [Hp|Hp]; [done|].
    apply exists_file_false in E. intros <-. rewrite E in Hp. by destruct Hp.
  - apply lookup_insert_ne. destruct Hp as [Hp|Hp]; [done|].
    apply exists_file_false in E. intros <-. rewrite E in Hp. by destruct Hp.
Qed.

Lemma sync_one_exists (net : str → response) (grid : str) (appid : Z)
    (w : world) (v : str * str) :
  exists_file (variant_path grid appid v) w = true ∨ net v.2 ≠ UrlError →
  exists_file (variant_path grid appid v) (sync_one net grid appid w v) = true.
Proof.
  intros H.
  destruct (sync_one_cases net grid appid w v)
    as [[E ->]|[E [[Hn ->]|[[_ ->]|(b & _ & ->)]]]].
  - done.
  - destruct H; congruence.
  - apply exists_file_true. simpl. rewrite lookup_insert_eq. eauto.
  - apply exists_file_true. simpl. rewrite lookup_insert_eq. eauto.
Qed.

(** ** The loop over the variants *)

Section Loop.
Variable net : str → response.
Variable grid : str.
Variable appid : Z.

Local Notation loop := (sync_variants net grid appid).

Lemma loop_events (vs : list (str * str)) (w : world) :
  ∃ evs, out (loop vs w) = out w ++ evs ∧ reported evs = List.map fst vs.
Proof.
  revert w. induction vs as [|v vs IH]; intros w.
  - exists []. by rewrite app_nil_r.
  - destruct (sync_one_events net grid appid w v) as (e1 & H1 & R1).
    destruct (IH (sync_one net grid appid w v)) as (e2 & H2 & R2).
    exists (e1 ++ e2). split.
    + unfold sync_variants in *. simpl. by rewrite H2, H1, app_assoc.
    + unfold reported in *. rewrite omap_app, R1, R2. done.
Qed.

Lemma loop_out_mono (vs : list (str * str)) (w : world) (ev : event) :
  ev ∈ out w → ev ∈ out (loop vs w).
Proof.
  intros Hin. destruct (loop_events vs w) as (evs & -> & _).
  apply elem_of_app. by left.
Qed.

Lemma loop_keeps (vs : list (str * str)) (w : world) (p : str) (c : bytes) :
  fs w !! p = Some c → fs (loop vs w) !! p = Some c.
Proof.
  revert w. induction vs as [|v vs IH]; intros w Hp; [done|].
  apply IH. rewrite sync_one_lookup; [done|]. right. by rewrite Hp.
Qed.

Lemma loop_exists_mono (vs : list (str * str)) (w : world) (p : str) :
  exists_file p w = true → exists_file p (loop vs w) = true.
Proof.
  rewrite !exists_file_true. intros [c Hc]. exists c. by apply loop_keeps.
Qed.

Lemma loop_other (vs : list (str * str)) (w : world) (p : str) :
  (∀ v, v ∈ vs → variant_path grid appid v ≠ p) →
  fs (loop vs w) !! p = fs w !! p.
Proof.
  revert w. induction vs as [|v vs IH]; intros w Hp; [done|].
  unfold sync_variants in *. simpl. rewrite IH.
  - apply sync_one_lookup. left. intros ->.
    apply (Hp v); [apply elem_of_cons; by left | done].
  - intros v' Hv'. apply Hp. by apply elem_of_cons; right.
Qed.

Lemma loop_all_cached (vs : list (str * str)) (w : world) :
  (∀ v, v ∈ vs → exists_file (variant_path grid appid v) w = true) →
  loop vs w = {| fs := fs w; out := out w ++ List.map (fun v => Skipping v.1) vs |}.
Proof.
  revert w. induction vs as [|v vs IH]; intros w Hall.
  - simpl. rewrite app_nil_r. by destruct w.
  - unfold sync_variants in *. simpl.
    rewrite sync_one_skip by (apply Hall, elem_of_cons; by left).
    rewrite IH.
    + simpl. by rewrite <- app_assoc.
    + intros v' Hv'. rewrite exists_file_emit. apply Hall, elem_of_cons. by right.
Qed.

Lemma loop_fills (vs : list (str * str)) (w : world) :
  (∀ v, v ∈ vs →
        exists_file (variant_path grid appid v) w = true ∨ net v.2 ≠ UrlError) →
  ∀ v, v ∈ vs → exists_file (variant_path grid appid v) (loop vs w) = true.
Proof.
  revert w. induction vs as [|v vs IH]; intros w Hall v' Hv'.
  - by apply elem_of_nil in Hv'.
  - apply elem_of_cons in Hv' as [->|Hv'].
    + apply (loop_exists_mono vs), sync_one_exists, Hall, elem_of_cons. by left.
    + apply IH; [|done]. intros u Hu.
      destruct (Hall u) as [E|E]; [apply elem_of_cons; by right | | by right].
      left. rewrite exists_file_true in *. destruct E as [c Hc].
      exists c. rewrite sync_one_lookup; [done|]. right. by rewrite Hc.
Qed.

Lemma loop_records_failure (vs : list (str * str)) (w : world) (v : str * str) :
  NoDup (List.map (variant_path grid appid) vs) →
  v ∈ vs →
  exists_file (variant_path grid appid v) w = false →
  (∀ b, net v.2 ≠ Body b) →
  ∃ evs, out (loop vs w) = out w ++ evs ∧ FailedDownload v.1 ∈ evs.
Proof.
  revert w. induction vs as [|u vs IH]; intros w Hnd Hv E Hnet.
  - by apply elem_of_nil in Hv.
  - simpl in Hnd. apply NoDup_cons in Hnd as [Hu Hnd].
    destruct (sync_one_events net grid appid w u) as (e1 & H1 & _).
    apply elem_of_cons in Hv as [->|Hv].
    + destruct (loop_events vs (sync_one net grid appid w u)) as (e2 & H2 & _).
      exists (e1 ++ e2). split.
      * unfold sync_variants in *. simpl. by rewrite H2, H1, app_assoc.
      * apply elem_of_app. left.
        destruct (sync_one_cases net grid appid w u)
          as [[E' _]|[_ [[_ Hs]|[[_ Hs]|(b & Hb & _)]]]].
        -- congruence.
        -- rewrite Hs in H1. simpl in H1. rewrite <- app_assoc in H1.
           apply app_inv_head in H1 as <-. apply elem_of_cons. right.
           by apply list_elem_of_singleton.
        -- rewrite Hs in H1. simpl in H1. rewrite <- app_assoc in H1.
           apply app_inv_head in H1 as <-. apply elem_of_cons. right.
           by apply list_elem_of_singleton.
        -- by apply Hnet in Hb.
    + destruct (IH (sync_one net grid appid w u)) as (e2 & H2 & Hin); try done.
      * apply exists_file_false. rewrite sync_one_lookup.
        -- by apply exists_file_false.
        -- left. intros Heq. apply Hu. rewrite <- Heq.
           apply list_elem_of_In, in_map, list_elem_of_In. done.
      * exists (e1 ++ e2). split.
        -- unfold sync_variants in *. simpl. by rewrite H2, H1, app_assoc.
        -- apply elem_of_app. by right.
Qed.
End Loop.

Lemma new_events_app (w w' : world) (evs : list event) :
  out w' = out w ++ evs → new_events w w' = evs.
Proof. intros H. unfold new_events. by rewrite H, drop_app_length. Qed.

(** ** The whole script *)

Lemma main_existing_file (e : env) (w : world) (data : bytes) :
  fs w !! shortcuts_file e = Some data →
  exists_file (shortcuts_file e) w = true
  ∧ read_file (shortcuts_file e) w = data.
Proof.
  intros H. split.
  - apply exists_file_true. by rewrite H.
  - unfold read_file. by rewrite H.
Qed.

Lemma main_success (e : env) (net : str → response) (w : world)
    (data : bytes) (appid : Z) (entry new_data : bytes) :
  fs w !! shortcuts_file e = Some data →
  compute_appid APPNAME (EXE e) = Ok appid →
  make_entry (config_dir e) (get_latest_index data + 1) appid APPNAME
    (EXE e) (STARTDIR e) = Ok entry →
  splice data entry = Some new_data →
  main e net w
  = (Exit 0,
     emit AllDone
       (sync_assets net (grid_dir e) appid
          (emit (ShortcutAdded (get_latest_index data + 1) appid)
             (write_file (shortcuts_file e) new_data w)))).
Proof.
  intros Hf Ha He Hs. destruct (main_existing_file e w data Hf) as [Hx Hr].
  unfold main. by rewrite Hx, Hr, Ha, He, Hs.
Qed.

Lemma main_rejected (e : env) (net : str → response) (w : world) (data : bytes) :
  fs w !! shortcuts_file e = Some data →
  (∀ pre, data ≠ pre ++ x08 ++ x08) →
  fs (main e net w).2 = fs w
  ∧ (main e net w).1 ≠ Exit 0
  ∧ ((∃ x, (main e net w).1 = Uncaught x)
     ∨ main e net w = (Exit 1, emit NotRecognized w)).
Proof.
  intros Hf Hbad. destruct (main_existing_file e w data Hf) as [Hx Hr].
  unfold main. rewrite Hx, Hr.
  destruct (compute_appid APPNAME (EXE e)) as [appid|x]; [|by eauto 6].
  destruct (make_entry _ _ _ _ _ _) as [entry|x]; [|by eauto 6].
  rewrite (splice_None _ _ Hbad). by eauto.
Qed.

Lemma APPNAME_encoded : encode APPNAME = Ok (blit "Minecraft Splitscreen").
Proof. reflexivity. Qed.

Lemma valid_run (e : env) (index : Z) :
  valid_text (EXE e) → valid_text (STARTDIR e) → valid_text (config_dir e) →
  ∃ appid entry,
    compute_appid APPNAME (EXE e) = Ok appid
    ∧ make_entry (config_dir e) index appid APPNAME (EXE e) (STARTDIR e) = Ok entry.
Proof.
  intros [be He] [bd Hd] [bc Hc].
  pose proof (compute_appid_Ok _ _ _ _ APPNAME_encoded He) as Ha.
  eexists _, _. split; [exact Ha|].
  apply (make_entry_layout _ _ _ _ _ _ bc (blit "Minecraft Splitscreen") be bd);
    try done.
  pose proof (compute_appid_range APPNAME (EXE e) _ Ha). lia.
Qed.

(** C3.  For every store file whose last two bytes are not both 0x08, the
    script writes nothing (every file is left as it was) and does not end
    with exit code 0; with texts the encoder accepts it ends with exit
    code 1 after reporting that the file structure is not recognised. *)
Theorem malformed_store_rejected (e : env) (net : str → response) (w : world)
    (data : bytes) :
  fs w !! shortcuts_file e = Some data →
  (∀ pre, data ≠ pre ++ x08 ++ x08) →
  fs (main e net w).2 = fs w
  ∧ (main e net w).1 ≠ Exit 0
  ∧ (valid_text (EXE e) → valid_text (STARTDIR e) → valid_text (config_dir e) →
     main e net w = (Exit 1, emit NotRecognized w)).
Proof.
  intros Hf Hbad.
  destruct (main_rejected e net w data Hf Hbad) as (H1 & H2 & H3).
  split; [done|]. split; [done|].
  intros Hx Hs Hc.
  destruct (valid_run e (get_latest_index data + 1) Hx Hs Hc)
    as (appid & entry & Ha & He).
  destruct (main_existing_file e w data Hf) as [Hex Hr].
  unfold main. by rewrite Hex, Hr, Ha, He, (splice_None _ _ Hbad).
Qed.

Lemma malformed_store_rejected_witness :
  let w := {| fs := {[ shortcuts_file deck_env := blit "garbage" ]}; out := [] |} in
  fs w !! shortcuts_file deck_env = Some (blit "garbage")
  ∧ (∀ pre, blit "garbage" ≠ pre ++ x08 ++ x08)
  ∧ fs (main deck_env offline w).2 = fs w
  ∧ (main deck_env offline w).1 ≠ Exit 0.
Proof.
  intros w.
  assert (H1 : fs w !! shortcuts_file deck_env = Some (blit "garbage"))
    by apply lookup_singleton_eq.
  assert (H2 : ∀ pre, blit "garbage" ≠ pre ++ x08 ++ x08).
  { intros pre H.
    assert (E : endswith (blit "garbage") (x08 ++ x08) = true)
      by (apply endswith_iff; eauto).
    vm_compute in E. discriminate E. }
  split; [exact H1|]. split; [exact H2|].
  destruct (malformed_store_rejected deck_env offline w (blit "garbage") H1 H2)
    as (Ha & Hb & _).
  split; [exact Ha | exact Hb].
Defined.

(** C8 (amended).  For each variant whose destination file already
    exists, the sync skips it without fetching or writing, and a file that
    exists is never overwritten; when every variant either had its file
    before the first call or got an answer to its request during it, a
    second call with the same identifier and directory performs no fetch
    and changes no file. *)
Theorem asset_sync_idempotent (grid : str) (appid : Z) :
  (∀ net w v,
     exists_file (variant_path grid appid v) w = true →
     sync_one net grid appid w v = emit (Skipping v.1) w)
  ∧ (∀ net w p c,
       fs w !! p = Some c → fs (sync_assets net grid appid w) !! p = Some c)
  ∧ (∀ net1 net2 w0,
       (∀ v, v ∈ STEAMGRIDDB_IMAGES →
             exists_file (variant_path grid appid v) w0 = true
             ∨ net1 v.2 ≠ UrlError) →
       let w1 := sync_assets net1 grid appid w0 in
       let w2 := sync_assets net2 grid appid w1 in
       fs w2 = fs w1
       ∧ new_events w1 w2 = List.map (fun v => Skipping v.1) STEAMGRIDDB_IMAGES
       ∧ fetches (new_events w1 w2) = []).
Proof.
  split; [|split].
  - intros net w v. apply sync_one_skip.
  - intros net w p c. apply loop_keeps.
  - intros net1 net2 w0 Hall w1 w2.
    assert (Hw2 : w2 = {| fs := fs w1;
                          out := out w1 ++ List.map (fun v => Skipping v.1)
                                             STEAMGRIDDB_IMAGES |}).
    { apply loop_all_cached. by apply loop_fills. }
    assert (Hev : new_events w1 w2
                  = List.map (fun v => Skipping v.1) STEAMGRIDDB_IMAGES).
    { apply new_events_app. by rewrite Hw2. }
    split; [by rewrite Hw2|]. split; [done|]. by rewrite Hev.
Qed.

Lemma asset_sync_idempotent_witness :
  let w1 := sync_assets online (slit "/g") 0x80000001 empty_world in
  let w2 := sync_assets offline (slit "/g") 0x80000001 w1 in
  (∀ v, v ∈ STEAMGRIDDB_IMAGES →
        exists_file (variant_path (slit "/g") 0x80000001 v) empty_world = true
        ∨ online v.2 ≠ UrlError)
  ∧ fs w2 = fs w1
  ∧ fetches (new_events w1 w2) = [].
Proof.
  intros w1 w2.
  assert (H : ∀ v, v ∈ STEAMGRIDDB_IMAGES →
                   exists_file (variant_path (slit "/g") 0x80000001 v) empty_world = true
                   ∨ online v.2 ≠ UrlError) by (intros v _; by right).
  split; [exact H|].
  destruct (proj2 (proj2 (asset_sync_idempotent (slit "/g") 0x80000001))
              online offline empty_world H) as (Ha & _ & Hb).
  split; [exact Ha | exact Hb].
Defined.

(** C8 as stated fails when the first call could not fetch: with no file
    present and every request failing, the second call requests all five
    variants again. *)
Lemma asset_sync_refetch_counterexample :
  let w1 := sync_assets offline (slit "/g") 0x80000001 empty_world in
  let w2 := sync_assets offline (slit "/g") 0x80000001 w1 in
  fetches (new_events w1 w2) = List.map snd STEAMGRIDDB_IMAGES
  ∧ length (fetches (new_events w1 w2)) = 5%nat.
Proof. split; vm_compute; reflexivity. Qed.

(** C9.  Failures are isolated per variant: whatever the network does,
    every variant is reported once and in order; a variant whose file is
    absent and whose fetch raises is reported as failed; and once the store
    has been spliced the script ends with exit code 0 and the store file
    holds the spliced bytes, whatever happened to the artwork. *)
Theorem asset_failures_isolated :
  (∀ net grid appid w,
     reported (new_events w (sync_assets net grid appid w))
     = List.map fst STEAMGRIDDB_IMAGES)
  ∧ (∀ net grid appid w v,
       v ∈ STEAMGRIDDB_IMAGES →
       exists_file (variant_path grid appid v) w = false →
       (∀ b, net v.2 ≠ Body b) →
       FailedDownload v.1 ∈ new_events w (sync_assets net grid appid w))
  ∧ (∀ e net w data appid entry new_data,
       fs w !! shortcuts_file e = Some data →
       compute_appid APPNAME (EXE e) = Ok appid →
       make_entry (config_dir e) (get_latest_index data + 1) appid APPNAME
         (EXE e) (STARTDIR e) = Ok entry →
       splice data entry = Some new_data →
       (main e net w).1 = Exit 0
       ∧ fs (main e net w).2 !! shortcuts_file e = Some new_data).
Proof.
  split; [|split].
  - intros net grid appid w.
    destruct (loop_events net grid appid STEAMGRIDDB_IMAGES w) as (evs & Ho & Hr).
    unfold sync_assets. by rewrite (new_events_app _ _ _ Ho).
  - intros net grid appid w v Hv Hx Hnet.
    destruct (loop_records_failure net grid appid STEAMGRIDDB_IMAGES w v)
      as (evs & Ho & Hin); try done.
    + apply variant_paths_NoDup.
    + unfold sync_assets. by rewrite (new_events_app _ _ _ Ho).
  - intros e net w data appid entry new_data Hf Ha He Hs.
    rewrite (main_success e net w data appid entry new_data Hf Ha He Hs).
    split; [done|]. simpl.
    unfold sync_assets. rewrite loop_other.
    + simpl. apply lookup_insert_eq.
    + intros v _. apply variant_path_not_store.
Qed.

Lemma asset_failures_isolated_witness :
  (slit "p", slit "https://cdn2.steamgriddb.com/grid/a73027901f88055aaa0fd1a9e25d36c7.png")
    ∈ STEAMGRIDDB_IMAGES
  ∧ exists_file
      (variant_path (slit "/g") 0x80000001
         (slit "p", slit "https://cdn2.steamgriddb.com/grid/a73027901f88055aaa0fd1a9e25d36c7.png"))
      empty_world = false
  ∧ (∀ b, offline (slit "https://cdn2.steamgriddb.com/grid/a73027901f88055aaa0fd1a9e25d36c7.png")
          ≠ Body b)
  ∧ FailedDownload (slit "p")
      ∈ new_events empty_world
          (sync_assets offline (slit "/g") 0x80000001 empty_world).
Proof.
  assert (H1 : (slit "p", slit "https://cdn2.steamgriddb.com/grid/a73027901f88055aaa0fd1a9e25d36c7.png")
               ∈ STEAMGRIDDB_IMAGES) by (apply elem_of_cons; by left).
  assert (H2 : exists_file
                 (variant_path (slit "/g") 0x80000001
                    (slit "p", slit "https://cdn2.steamgriddb.com/grid/a73027901f88055aaa0fd1a9e25d36c7.png"))
                 empty_world = false) by reflexivity.
  assert (H3 : ∀ b, offline (slit "https://cdn2.steamgriddb.com/grid/a73027901f88055aaa0fd1a9e25d36c7.png")
                    ≠ Body b) by done.
  split; [exact H1|]. split; [exact H2|]. split; [exact H3|].
  exact (proj1 (proj2 asset_failures_isolated) offline (slit "/g") 0x80000001
           empty_world _ H1 H2 H3).
Defined.
